(** * hibp-chain-api: the breach collection chain of [lib.js]

    A shallow embedding of the [HIBP] class of [lib.js]: the loaded breach
    array, the chainable filters, [pluck], [sort], [reset] and the terminal
    [breaches], followed by the properties the specification states about
    them.

    Conventions of the embedding.
    - Breach objects are finite maps from property names to JavaScript
      values; reading an absent property yields [VUndef] as in JavaScript.
      Properties inherited from [Object.prototype] are not modelled.
    - Numbers are the integer-valued doubles plus [NaN]; fractions and
      infinities do not occur in the data the class handles ([PwnCount] is
      an integer, dates are epoch milliseconds, booleans count as 0 and 1).
    - Arrays live in a store and are named by references, because
      [Array.prototype.sort] works in place while [filter], [map], [slice]
      and the spread copy allocate. Breach objects are plain values: no
      method of the class writes to a breach ([pluck] builds new objects),
      and a predicate handed to [filter] is a pure function.
    - A method either completes normally or abruptly (a [TypeError]).
    - Arguments range over the types the JSDoc of each method declares; an
      omitted argument is [None]. *)

From stdpp Require Import base option list strings gmap pretty sorting.
From Stdlib Require Import ZArith Ascii DecimalString.

Local Open Scope Z_scope.

(** ** JavaScript values *)

Inductive num :=
| NaN
| Int (z : Z).

Inductive value :=
| VUndef
| VBool (b : bool)
| VNum (n : num)
| VStr (s : string)
| VDate (t : num)            (* a Date object and its time value *)
| VArr (l : list string).    (* an array of strings *)

#[global] Instance num_eq_dec : EqDecision num.
Proof. solve_decision. Defined.

#[global] Instance value_eq_dec : EqDecision value.
Proof. solve_decision. Defined.

(** A breach object. *)
Abbreviation record := (gmap string value).

(** [breach[key]] *)
Definition get (r : record) (key : string) : value :=
  default VUndef (r !! key).

(** ** Completions *)

Inductive exn := TypeError.

Inductive completion (A : Type) :=
| Normal (a : A)
| Abrupt (e : exn).
Arguments Normal {A} a.
Arguments Abrupt {A} e.

#[global] Instance completion_ret : MRet completion := @Normal.
#[global] Instance completion_bind : MBind completion := λ A B f m,
  match m with
  | Normal a => f a
  | Abrupt e => Abrupt e
  end.

(** ** Conversions and operators of the language *)

(** What the engine implements and the source only calls: the collation
    behind [String.prototype.localeCompare], the parser behind [ToNumber]
    on strings and the printer behind [Date.prototype.toString].
    ECMAScript requires [localeCompare] to be a consistent comparator. *)
Class Runtime := {
  localeCompare : string → string → Z;
  string_to_number : string → num;
  date_to_string : num → string;
  localeCompare_refl s : localeCompare s s = 0;
  localeCompare_antisym a b : Z.sgn (localeCompare b a) = - Z.sgn (localeCompare a b);
  localeCompare_trans a b c :
    localeCompare a b ≤ 0 → localeCompare b c ≤ 0 → localeCompare a c ≤ 0;
}.

Definition num_sub (a b : num) : num :=
  match a, b with
  | Int x, Int y => Int (x - y)
  | _, _ => NaN
  end.

Definition num_mul (a b : num) : num :=
  match a, b with
  | Int x, Int y => Int (x * y)
  | _, _ => NaN
  end.

(** [Number.prototype.toString] on the integers (exact below 10^21 in
    magnitude, where the engine switches to exponent notation). *)
Definition number_to_string (n : num) : string :=
  match n with
  | NaN => "NaN"
  | Int z => pretty z
  end.

(** [Array.prototype.join] with the default separator. *)
Definition join (l : list string) : string := String.concat "," l.

(** [ToBoolean] *)
Definition to_boolean (v : value) : bool :=
  match v with
  | VUndef => false
  | VBool b => b
  | VNum NaN => false
  | VNum (Int z) => negb (z =? 0)
  | VStr s => negb (String.eqb s "")
  | VDate _ => true
  | VArr _ => true
  end.

Section Conversions.
Context `{rt : Runtime}.

(** [ToNumber]; a Date goes through [valueOf], an array through
    [toString]. *)
Definition to_number (v : value) : num :=
  match v with
  | VUndef => NaN
  | VBool b => Int (if b then 1 else 0)
  | VNum n => n
  | VStr s => string_to_number s
  | VDate t => t
  | VArr l => string_to_number (join l)
  end.

(** [String(v)] *)
Definition to_string (v : value) : string :=
  match v with
  | VUndef => "undefined"
  | VBool b => if b then "true" else "false"
  | VNum n => number_to_string n
  | VStr s => s
  | VDate t => date_to_string t
  | VArr l => join l
  end.
End Conversions.

(** [v.getTime()]: only a Date has the method. *)
Definition getTime (v : value) : completion num :=
  match v with
  | VDate t => Normal t
  | _ => Abrupt TypeError
  end.

(** [v.includes(x)] for a string [x]: membership on an array, substring
    search on a string, no such method elsewhere. *)
Definition includes (v : value) (x : string) : completion bool :=
  match v with
  | VArr l => Normal (bool_decide (x ∈ l))
  | VStr s => Normal (if String.index 0 x s is Some _ then true else false)
  | _ => Abrupt TypeError
  end.

(** [names.includes(v)] where [names] is an array of strings
    (SameValueZero only identifies a string with the same string). *)
Definition array_includes (names : list string) (v : value) : bool :=
  match v with
  | VStr s => bool_decide (s ∈ names)
  | _ => false
  end.

(** [v === s] for a string [s], and [v === b] for a boolean [b]. *)
Definition strict_eq_string (v : value) (s : string) : bool :=
  match v with
  | VStr s' => bool_decide (s' = s)
  | _ => false
  end.

Definition strict_eq_bool (v : value) (b : bool) : bool :=
  match v with
  | VBool b' => bool_decide (b' = b)
  | _ => false
  end.

(** [String.prototype.toLowerCase] on the ASCII letters, which is all that
    can turn a string into "asc" or "desc". *)
Definition lower_ascii (c : Ascii.ascii) : Ascii.ascii :=
  let n := Ascii.N_of_ascii c in
  if ((65 <=? n) && (n <=? 90))%N then Ascii.ascii_of_N (n + 32) else c.

Fixpoint toLowerCase (s : string) : string :=
  match s with
  | EmptyString => EmptyString
  | String c s' => String (lower_ascii c) (toLowerCase s')
  end.

(** [key.startsWith("-")] *)
Definition startsWith_minus (key : string) : bool :=
  match key with
  | String "-"%char _ => true
  | _ => false
  end.

(** [key.replace(/\-/, "")]: the first minus sign is removed. *)
Fixpoint replace_minus (key : string) : string :=
  match key with
  | EmptyString => EmptyString
  | String c rest => if Ascii.eqb c "-"%char then rest else String c (replace_minus rest)
  end.

(** ** Arrays *)

Section Arrays.
Context {A : Type}.

(** [Array.prototype.filter]: the callback runs on every element in
    order, and an element is kept when the result is truthy. *)
Fixpoint array_filter (fn : A → completion value) (a : list A)
  : completion (list A) :=
  match a with
  | [] => Normal []
  | x :: a' =>
      v ← fn x;
      rest ← array_filter fn a';
      Normal (if to_boolean v then x :: rest else rest)
  end.

(** [a.slice(0, end)]: [NaN] counts as 0, a negative end is relative to
    the length, and the result is clamped to the array. *)
Definition slice0 (end_ : num) (a : list A) : list A :=
  let len := Z.of_nat (length a) in
  let relativeEnd := match end_ with NaN => 0 | Int z => z end in
  let final :=
    if relativeEnd <? 0 then Z.max (len + relativeEnd) 0
    else Z.min relativeEnd len in
  take (Z.to_nat final) a.

Context `{rt : Runtime}.

(** SortCompare of ECMAScript: the comparator's result goes through
    [ToNumber], and [NaN] counts as +0. *)
Definition sort_compare (fn : A → A → completion value) (x y : A)
  : completion Z :=
  v ← fn x y;
  Normal (match to_number v with NaN => 0 | Int z => z end).

(** [Array.prototype.sort] as the engine's insertion sort: each element
    in turn is the pivot, moved left past the elements of the sorted
    prefix for which [fn pivot element] is negative. [sorted] holds the
    prefix from its last element to its first. ECMAScript fixes the
    outcome (the stable sorted order) for consistent comparators and
    leaves it to the engine otherwise, so nothing below relies on the
    order this sort picks for a comparator that is not consistent; the
    array is written back only when no comparison completed abruptly. *)
Fixpoint insert_pivot (fn : A → A → completion value) (pivot : A)
  (sorted : list A) : completion (list A) :=
  match sorted with
  | [] => Normal [pivot]
  | element :: sorted' =>
      order ← sort_compare fn pivot element;
      if order <? 0
      then rest ← insert_pivot fn pivot sorted'; Normal (element :: rest)
      else Normal (pivot :: sorted)
  end.

Fixpoint sort_loop (fn : A → A → completion value) (a sorted : list A)
  : completion (list A) :=
  match a with
  | [] => Normal (reverse sorted)
  | pivot :: a' =>
      sorted' ← insert_pivot fn pivot sorted;
      sort_loop fn a' sorted'
  end.

Definition array_sort (fn : A → A → completion value) (a : list A)
  : completion (list A) :=
  sort_loop fn a [].
End Arrays.

(** A rest parameter of the class takes strings and arrays of strings. *)
Inductive arg :=
| Str (s : string)
| Arr (l : list string).

(** [args.flat()] *)
Definition flat (args : list arg) : list string :=
  flat_map (λ a, match a with Str s => [s] | Arr l => l end) args.

(** The [direction] argument of [sort]: a number or a string. *)
Inductive direction :=
| DNum (n : num)
| DStr (s : string).

(** ** The class *)

Module HIBP.

Inductive sort_type := SDate | SBoolean | SNumber | SString.

#[global] Instance sort_type_eq_dec : EqDecision sort_type.
Proof. solve_decision. Defined.

(** [HIBP.types] *)
Definition types : gmap string sort_type :=
  list_to_map
    [ ("AddedDate", SDate);
      ("BreachDate", SDate);
      ("Domain", SString);
      ("IsFabricated", SBoolean);
      ("IsRetired", SBoolean);
      ("IsSensitive", SBoolean);
      ("IsSpamList", SBoolean);
      ("IsVerified", SBoolean);
      ("ModifiedDate", SDate);
      ("Name", SString);
      ("PwnCount", SNumber) ].

Inductive field_type :=
| FString      (* string: a non-empty string *)
| FHostname    (* string.hostname().allow(""): a string, possibly empty *)
| FDate        (* date: a valid Date *)
| FInteger     (* number.integer() *)
| FBoolean     (* boolean *)
| FStrings.    (* array.items(string) *)

(** [HIBP.schema]: the keys of a breach object and their types. *)
Definition schema : list (string * field_type) :=
  [ ("Name", FString);
    ("Title", FString);
    ("Domain", FHostname);
    ("AddedDate", FDate);
    ("BreachDate", FDate);
    ("ModifiedDate", FDate);
    ("PwnCount", FInteger);
    ("Description", FString);
    ("LogoPath", FString);
    ("DataClasses", FStrings);
    ("IsVerified", FBoolean);
    ("IsFabricated", FBoolean);
    ("IsSensitive", FBoolean);
    ("IsRetired", FBoolean);
    ("IsSpamList", FBoolean) ].

Definition has_type (ty : field_type) (v : value) : bool :=
  match ty, v with
  | FString, VStr s => negb (String.eqb s "")
  | FHostname, VStr _ => true
  | FDate, VDate (Int _) => true
  | FInteger, VNum (Int _) => true
  | FBoolean, VBool _ => true
  | FStrings, VArr _ => true
  | _, _ => false
  end.

(** What validation against the schema leaves of a breach: every key is
    present with a value of its type (the hostname format of [Domain] is
    not modelled). *)
Definition well_formed (breach : record) : bool :=
  forallb (λ '(key, ty), has_type ty (get breach key)) schema.

(** The object: its two properties hold array references. *)
Definition ref := nat.

Record t := mk {
  heap : gmap ref (list record);
  _breaches : option ref;
  _origBreaches : option ref;
}.

(** [new HIBP()] *)
Definition new : t :=
  {| heap := ∅; _breaches := None; _origBreaches := None |}.

Definition alloc (a : list record) (this : t) : ref * t :=
  let r := fresh (dom (heap this)) in
  (r, {| heap := <[r := a]> (heap this);
         _breaches := _breaches this;
         _origBreaches := _origBreaches this |}).

Definition store (r : ref) (a : list record) (this : t) : t :=
  {| heap := <[r := a]> (heap this);
     _breaches := _breaches this;
     _origBreaches := _origBreaches this |}.

Definition set_breaches (r : ref) (this : t) : t :=
  {| heap := heap this;
     _breaches := Some r;
     _origBreaches := _origBreaches this |}.

Definition set_origBreaches (r : ref) (this : t) : t :=
  {| heap := heap this;
     _breaches := _breaches this;
     _origBreaches := Some r |}.

(** Reading the array behind a property; [undefined] has no methods and
    cannot be spread. *)
Definition deref (o : option ref) (this : t) : completion (list record) :=
  match o ≫= (heap this !!.) with
  | Some a => Normal a
  | None => Abrupt TypeError
  end.

(** The working set and the snapshot, when the object holds them. *)
Definition working (this : t) : option (list record) :=
  _breaches this ≫= (heap this !!.).


(** [getBreaches]: [data] is the array the validated response resolves
    to; the request itself is not modelled. *)
Definition getBreaches (data : list record) (this : t) : t :=
  let '(b, this) := alloc data this in
  let this := set_breaches b this in
  let '(o, this) := alloc data this in
  set_origBreaches o this.

Definition reset (this : t) : completion unit * t :=
  match deref (_origBreaches this) this with
  | Normal a =>
      let '(r, this) := alloc a this in
      (Normal (), set_breaches r this)
  | Abrupt e => (Abrupt e, this)
  end.

Definition breaches (limit : option num) (this : t)
  : completion (option ref) * t :=
  if to_boolean (from_option VNum VUndef limit) then
    match deref (_breaches this) this with
    | Normal a =>
        let '(r, this) := alloc (slice0 (default NaN limit) a) this in
        (Normal (Some r), this)
    | Abrupt e => (Abrupt e, this)
    end
  else (Normal (_breaches this), this).

Definition filter (fn : option (record → completion value)) (this : t)
  : completion unit * t :=
  let fn := default (λ _, Normal (VBool true)) fn in
  match deref (_breaches this) this ≫= array_filter fn with
  | Normal a =>
      let '(r, this) := alloc a this in
      (Normal (), set_breaches r this)
  | Abrupt e => (Abrupt e, this)
  end.

Definition _boolProp (name : string) (bool : option bool) (this : t)
  : completion unit * t :=
  let bool := default true bool in
  let fn breach := Normal (VBool (strict_eq_bool (get breach name) bool)) in
  filter (Some fn) this.

Definition isFabricated (bool : option bool) :=
  _boolProp "IsFabricated" (Some (default true bool)).
Definition isRetired (bool : option bool) :=
  _boolProp "IsRetired" (Some (default true bool)).
Definition isSensitive (bool : option bool) :=
  _boolProp "IsSensitive" (Some (default true bool)).
Definition isSpamList (bool : option bool) :=
  _boolProp "IsSpamList" (Some (default true bool)).
Definition isVerified (bool : option bool) :=
  _boolProp "IsVerified" (Some (default true bool)).

Fixpoint hasDataClass_loop (dataClasses : list string) (this : t)
  : completion unit * t :=
  match dataClasses with
  | [] => (Normal (), this)
  | dataClass :: rest =>
      let fn breach :=
        b ← includes (get breach "DataClasses") dataClass;
        Normal (VBool b) in
      match filter (Some fn) this with
      | (Normal _, this) => hasDataClass_loop rest this
      | (Abrupt e, this) => (Abrupt e, this)
      end
  end.

Definition hasDataClass (dataClasses : list arg) (this : t)
  : completion unit * t :=
  hasDataClass_loop (flat dataClasses) this.

Definition hasDomain (domain : option string) (this : t)
  : completion unit * t :=
  let fn :=
    match domain with
    | Some domain =>
        λ breach, Normal (VBool (strict_eq_string (get breach "Domain") domain))
    | None =>
        λ breach, Normal (VBool (negb (strict_eq_string (get breach "Domain") "")))
    end in
  filter (Some fn) this.

Definition name (names : list arg) (this : t) : completion unit * t :=
  let names := flat names in
  let fn breach := Normal (VBool (array_includes names (get breach "Name"))) in
  filter (Some fn) this.

(** The object [pluck] builds for one breach. *)
Definition pluck_one (props : list string) (breach : record) : record :=
  foldl (λ obj prop, <[prop := get breach prop]> obj) ∅ props.

Definition pluck (props : list arg) (this : t) : completion unit * t :=
  let props := flat props in
  match deref (_breaches this) this with
  | Normal a =>
      let '(r, this) := alloc (pluck_one props <$> a) this in
      (Normal (), set_breaches r this)
  | Abrupt e => (Abrupt e, this)
  end.

Section Sort.
Context `{rt : Runtime}.

Definition direction_to_string (d : direction) : string :=
  match d with
  | DNum n => number_to_string n
  | DStr s => s
  end.

Definition direction_to_number (d : direction) : num :=
  match d with
  | DNum n => n
  | DStr s => string_to_number s
  end.

(** The [switch] on the lower-cased direction. *)
Definition sort_direction (d : direction) : direction :=
  let s := toLowerCase (direction_to_string d) in
  if String.eqb s "asc" then DNum (Int 1)
  else if String.eqb s "desc" then DNum (Int (-1))
  else d.

(** The key and the direction after the minus-prefix test. *)
Definition sort_key (key : string) : string :=
  if startsWith_minus key then replace_minus key else key.

Definition sort_key_direction (key : string) (d : direction) : direction :=
  if startsWith_minus key then DNum (Int (-1)) else d.

(** The comparator [fn] that [sort] builds. *)
Definition sort_fn (key : string) (sortType : option sort_type)
  (d : direction) (a b : record) : completion value :=
  let aValue := get a key in
  let bValue := get b key in
  match sortType with
  | Some SDate =>
      aTime ← getTime aValue;
      bTime ← getTime bValue;
      Normal (VNum (num_mul (num_sub aTime bTime) (direction_to_number d)))
  | Some SBoolean | Some SNumber =>
      Normal (VNum (num_mul (num_sub (to_number aValue) (to_number bValue))
                            (direction_to_number d)))
  | Some SString =>
      Normal (VNum (num_mul
                      (Int (localeCompare (to_string aValue) (to_string bValue)))
                      (direction_to_number d)))
  | None => Normal (VBool true)
  end.

(** [fn] as [sort(key, direction)] builds it, defaults included. *)
Definition comparator (key : option string) (d : option direction)
  : record → record → completion value :=
  let key := default "AddedDate" key in
  let d := default (DNum (Int 1)) d in
  let d := sort_direction d in
  let d := sort_key_direction key d in
  let key := sort_key key in
  let sortType := types !! key in
  sort_fn key sortType d.

Definition sort (key : option string) (d : option direction) (this : t)
  : completion unit * t :=
  let fn := comparator key d in
  match deref (_breaches this) this ≫= array_sort fn, _breaches this with
  | Normal a, Some r => (Normal (), set_breaches r (store r a this))
  | Normal _, None => (Abrupt TypeError, this)
  | Abrupt e, _ => (Abrupt e, this)
  end.
End Sort.

End HIBP.

(** ** Chains of calls *)

(** The chainable calls: the generic filter, the named filters, [pluck]
    and [sort]. A custom predicate is a pure function of the breach. *)
Inductive call :=
| Filter (fn : option (record → completion value))
| IsFabricated (bool : option bool)
| IsRetired (bool : option bool)
| IsSensitive (bool : option bool)
| IsSpamList (bool : option bool)
| IsVerified (bool : option bool)
| HasDataClass (dataClasses : list arg)
| HasDomain (domain : option string)
| Name (names : list arg)
| Pluck (props : list arg)
| Sort (key : option string) (d : option direction).

Section Chains.
Context `{rt : Runtime}.

Definition invoke (c : call) (this : HIBP.t) : completion unit * HIBP.t :=
  match c with
  | Filter fn => HIBP.filter fn this
  | IsFabricated bool => HIBP.isFabricated bool this
  | IsRetired bool => HIBP.isRetired bool this
  | IsSensitive bool => HIBP.isSensitive bool this
  | IsSpamList bool => HIBP.isSpamList bool this
  | IsVerified bool => HIBP.isVerified bool this
  | HasDataClass dataClasses => HIBP.hasDataClass dataClasses this
  | HasDomain domain => HIBP.hasDomain domain this
  | Name names => HIBP.name names this
  | Pluck props => HIBP.pluck props this
  | Sort key d => HIBP.sort key d this
  end.

(** The object after a sequence of calls, each made on the object as the
    previous one left it, whether that one returned or threw. *)
Definition invoke_all (cs : list call) (this : HIBP.t) : HIBP.t :=
  foldl (λ this c, (invoke c this).2) this cs.
End Chains.

(** ** A runtime to evaluate the model with *)

(** Collation by code units, decimal integers for [ToNumber] on strings,
    and the epoch value for a printed date: enough to run the model on
    concrete breaches. *)
Definition code_unit_compare (a b : string) : Z :=
  match String.compare a b with
  | Eq => 0
  | Lt => -1
  | Gt => 1
  end.

Definition decimal_to_number (s : string) : num :=
  match NilZero.int_of_string s with
  | Some d => Int (Z.of_int d)
  | None => NaN
  end.

Lemma string_compare_refl s : String.compare s s = Eq.
Proof.
  induction s as [|c s IH]; simpl; [done|].
  unfold Ascii.compare. by rewrite N.compare_refl.
Qed.

Lemma string_compare_trans a b c :
  String.compare a b ≠ Gt → String.compare b c ≠ Gt → String.compare a c ≠ Gt.
Proof.
  revert b c. induction a as [|x a IH]; intros [|y b] [|z c]; simpl; try done.
  unfold Ascii.compare.
  destruct (N.compare_spec (N_of_ascii x) (N_of_ascii y)) as [Hxy|Hxy|Hxy];
    destruct (N.compare_spec (N_of_ascii y) (N_of_ascii z)) as [Hyz|Hyz|Hyz];
    destruct (N.compare_spec (N_of_ascii x) (N_of_ascii z)) as [Hxz|Hxz|Hxz];
    try done; try lia.
  apply IH.
Qed.

#[global, refine] Instance code_unit_runtime : Runtime := {|
  localeCompare := code_unit_compare;
  string_to_number := decimal_to_number;
  date_to_string := number_to_string;
|}.
Proof.
  - intros s. unfold code_unit_compare. by rewrite string_compare_refl.
  - intros a b. unfold code_unit_compare.
    rewrite (String.compare_antisym b a). by destruct (String.compare a b).
  - intros a b c. unfold code_unit_compare.
    pose proof (string_compare_trans a b c) as Ht.
    destruct (String.compare a b), (String.compare b c), (String.compare a c);
      try done; intros; exfalso; by apply Ht.
Defined.

(** ** Vocabulary of the statements *)

(** A chainable call returned and left [ws] as the working set. *)
Definition returns (o : completion unit * HIBP.t) (ws : list record) : Prop :=
  o.1 = Normal () ∧ HIBP.working o.2 = Some ws.


(** The content of the array a terminal call returned. *)
Definition returned (o : completion (option HIBP.ref) * HIBP.t)
  : option (list record) :=
  match o.1 with
  | Normal (Some r) => HIBP.heap o.2 !! r
  | _ => None
  end.

(** The classes of a breach whose [DataClasses] is an array. *)
Definition data_classes (breach : record) : list string :=
  match get breach "DataClasses" with
  | VArr l => l
  | _ => []
  end.

(** How the values of two breaches at [key] compare before the direction
    applies: the difference of the two numbers, or the collation of the
    two strings. *)
Definition key_order `{rt : Runtime} (key : string) (ty : HIBP.sort_type)
  (a b : record) : Z :=
  match ty with
  | HIBP.SString => localeCompare (to_string (get a key)) (to_string (get b key))
  | _ =>
      match num_sub (to_number (get a key)) (to_number (get b key)) with
      | Int z => z
      | NaN => 0
      end
  end.

(** The number a breach holds at a numeric key. *)
Definition key_number `{rt : Runtime} (key : string) (breach : record) : Z :=
  match to_number (get breach key) with
  | Int z => z
  | NaN => 0
  end.


(** A call whose custom predicate, if it has one, does not throw on the
    breaches of [ws]. *)
Definition quiet (c : call) (ws : list record) : Prop :=
  match c with
  | Filter (Some fn) => ∀ breach, breach ∈ ws → ∃ v, fn breach = Normal v
  | _ => True
  end.

(** The number SortCompare hands to the sort for a pair, 0 standing in
    where the comparator throws. *)
Definition order_of `{rt : Runtime} {A : Type}
  (fn : A → A → completion value) (x y : A) : Z :=
  match sort_compare fn x y with
  | Normal z => z
  | Abrupt _ => 0
  end.

(** ** A fixture *)

(** Well-formed breaches to run the class on. *)
Definition breach (name domain : string) (added pwnCount : Z)
  (dataClasses : list string) (verified sensitive : bool) : record :=
  list_to_map
    [ ("Name", VStr name);
      ("Title", VStr name);
      ("Domain", VStr domain);
      ("AddedDate", VDate (Int added));
      ("BreachDate", VDate (Int (added - 86400000)));
      ("ModifiedDate", VDate (Int (added + 86400000)));
      ("PwnCount", VNum (Int pwnCount));
      ("Description", VStr "A breach.");
      ("LogoPath", VStr "logo.png");
      ("DataClasses", VArr dataClasses);
      ("IsVerified", VBool verified);
      ("IsFabricated", VBool false);
      ("IsSensitive", VBool sensitive);
      ("IsRetired", VBool false);
      ("IsSpamList", VBool false) ].

Definition adobe : record :=
  breach "Adobe" "adobe.com" 1386115200000 152445165
         ["email-addresses"; "password-hints"; "passwords"; "usernames"] true false.
Definition estonia : record :=
  breach "Estonia" "" 1528243200000 655161
         ["email-addresses"; "job-titles"; "names"] true false.
Definition masterDeeds : record :=
  breach "MasterDeeds" "" 1508198400000 2257930
         ["email-addresses"; "job-titles"; "names"; "phone-numbers"] true false.
Definition fling : record :=
  breach "Fling" "fling.com" 1462492800000 40767652
         ["email-addresses"; "passwords"; "usernames"] true true.

Definition fixture : list record := [adobe; estonia; masterDeeds; fling].

(** The object after loading the fixture. *)
Definition fixture_loaded : HIBP.t := HIBP.getBreaches fixture HIBP.new.

(** The names of the working set. *)
Definition working_names (this : HIBP.t) : option (list value) :=
  (λ ws : list record, (λ breach, get breach "Name") <$> ws) <$> HIBP.working this.

(** ** The demo script *)

(** A chained call: the next method runs on the object the previous one
    returned, and a throw ends the chain. *)
Definition and_then {A} (o : completion unit * HIBP.t)
  (f : HIBP.t → completion A * HIBP.t) : completion A * HIBP.t :=
  match o with
  | (Normal _, this) => f this
  | (Abrupt e, this) => (Abrupt e, this)
  end.

(** [main] of the demo script, from the array the request resolved to up
    to the array handed to [console.log]. *)
Definition main `{rt : Runtime} (data : list record)
  : completion (option HIBP.ref) * HIBP.t :=
  let this := HIBP.getBreaches data HIBP.new in
  and_then
    (and_then
       (and_then
          (and_then
             (and_then
                (and_then
                   (and_then
                      (HIBP.name [Str "MasterDeeds"; Str "Estonia";
                                  Str "WienerBuchereien"; Str "Adobe";
                                  Str "LinkedIn"] this)
                      (HIBP.hasDomain (Some "")))
                   (HIBP.isSensitive (Some false)))
                (HIBP.isVerified None))
             (HIBP.hasDataClass [Str "names"; Str "job-titles"]))
          (HIBP.sort (Some "-PwnCount") None))
       (HIBP.pluck [Str "Name"; Str "PwnCount"]))
    (HIBP.breaches None).

(** ** More vocabulary *)

(** Whether [Array.prototype.filter] keeps a breach under a predicate that
    returns on it. *)
Definition keeps (fn : record → completion value) (breach : record) : bool :=
  match fn breach with
  | Normal v => to_boolean v
  | Abrupt _ => false
  end.

(** The calls that filter: all but [pluck] and [sort]. *)
Definition is_filter (c : call) : bool :=
  match c with
  | Pluck _ | Sort _ _ => false
  | _ => true
  end.

(** The number the comparator of [sort(key, direction)] multiplies by. *)
Definition sort_sign `{rt : Runtime} (key : option string)
  (d : option direction) : num :=
  HIBP.direction_to_number
    (HIBP.sort_key_direction (default "AddedDate" key)
       (HIBP.sort_direction (default (DNum (Int 1)) d))).

(** An array [a] behind a reference [r] that is not the working one. *)
Definition kept (r : HIBP.ref) (a : list record) (this : HIBP.t) : Prop :=
  HIBP.heap this !! r = Some a ∧ HIBP._breaches this ≠ Some r.

(** The breaches the filters of the demo script keep. *)
Definition demo_keeps (breach : record) : Prop :=
  get breach "Name" ∈ VStr <$> ["MasterDeeds"; "Estonia"; "WienerBuchereien";
                                "Adobe"; "LinkedIn"] ∧
  get breach "Domain" = VStr "" ∧
  get breach "IsSensitive" = VBool false ∧
  get breach "IsVerified" = VBool true ∧
  Forall (λ c, c ∈ data_classes breach) ["names"; "job-titles"].

#[global] Instance demo_keeps_dec breach : Decision (demo_keeps breach).
Proof. unfold demo_keeps. apply _. Defined.

(** ** A runtime whose collation ties two distinct strings *)

(** Strings are read as UTF-8. ECMAScript requires [localeCompare] to
    return 0 on canonically equivalent strings, such as U+00E9 (bytes 195
    169) and U+0065 U+0301 (bytes 101 204 129). [decompose] replaces the
    first form by the second, and [canonical_compare] collates the
    decomposed strings by code units. *)
Fixpoint decompose (s : string) : string :=
  match s with
  | EmptyString => EmptyString
  | String c s' =>
      match s' with
      | String c2 rest =>
          if Ascii.eqb c "195"%char && Ascii.eqb c2 "169"%char
          then String "e"%char (String "204"%char (String "129"%char (decompose rest)))
          else String c (decompose s')
      | EmptyString => String c EmptyString
      end
  end.

Definition canonical_compare (a b : string) : Z :=
  code_unit_compare (decompose a) (decompose b).

Definition canonical_runtime : Runtime.
Proof.
  refine {| localeCompare := canonical_compare;
            string_to_number := decimal_to_number;
            date_to_string := number_to_string |}.
  - intros s. apply (@localeCompare_refl code_unit_runtime).
  - intros a b. apply (@localeCompare_antisym code_unit_runtime).
  - intros a b c. apply (@localeCompare_trans code_unit_runtime).
Defined.

(** Two breaches named "Café", one with the letter in one code point, one
    with the letter followed by the combining accent. *)
Definition cafe_composed : record :=
  breach (String "C" (String "a" (String "f" (String "195" (String "169" ""))))%char)
         "cafe.example" 1400000000000 1200 ["email-addresses"] true false.
Definition cafe_decomposed : record :=
  breach (String "C" (String "a" (String "f"
            (String "e" (String "204" (String "129" "")))))%char)
         "cafe.example.org" 1500000000000 3400 ["email-addresses"] true false.

(** The property names [Object.prototype] answers. A breach inherits them:
    reading one yields the inherited value, and assigning to ["__proto__"]
    sets the prototype instead of creating a property. [get] and
    [HIBP.pluck_one] describe the objects of the code for all other
    names. *)
Definition object_prototype_names : list string :=
  [ "constructor"; "__proto__"; "__defineGetter__"; "__defineSetter__";
    "__lookupGetter__"; "__lookupSetter__"; "hasOwnProperty"; "isPrototypeOf";
    "propertyIsEnumerable"; "toLocaleString"; "toString"; "valueOf" ].

(** * Properties *)

(** ** The sort of the engine *)

Section SortFacts.
Context `{rt : Runtime} {A : Type}.
Variable fn : A → A → completion value.
Variable c : A → A → Z.

Lemma insert_pivot_split pivot sorted :
  (∀ e, e ∈ sorted → sort_compare fn pivot e = Normal (c pivot e)) →
  ∃ l1 l2,
    sorted = l1 ++ l2 ∧
    insert_pivot fn pivot sorted = Normal (l1 ++ pivot :: l2) ∧
    Forall (λ e, c pivot e < 0) l1 ∧
    (∀ h, head l2 = Some h → ¬ c pivot h < 0).
Proof.
  induction sorted as [|e sorted' IH]; intros Hc.
  - exists [], []. by repeat split.
  - simpl. rewrite (Hc e) by left. simpl.
    destruct (Z.ltb_spec (c pivot e) 0) as [Hlt|Hge].
    + destruct IH as (l1 & l2 & -> & -> & Hl1 & Hl2).
      { intros e' He'. apply Hc. by right. }
      exists (e :: l1), l2. repeat split; auto.
    + exists [], (e :: sorted'). repeat split; auto.
      intros h [= <-]. lia.
Qed.

Lemma insert_pivot_perm pivot sorted res :
  insert_pivot fn pivot sorted = Normal res → res ≡ₚ pivot :: sorted.
Proof.
  revert res. induction sorted as [|e sorted' IH]; intros res; simpl.
  - by intros [= <-].
  - destruct (sort_compare fn pivot e) as [order|]; simpl; [|done].
    destruct (order <? 0); [|by intros [= <-]].
    destruct (insert_pivot fn pivot sorted') as [rest|]; simpl; [|done].
    intros [= <-]. rewrite (IH rest eq_refl). apply perm_swap.
Qed.

Lemma sort_loop_perm a sorted res :
  sort_loop fn a sorted = Normal res → res ≡ₚ sorted ++ a.
Proof.
  revert sorted res. induction a as [|x a IH]; intros sorted res; simpl.
  - intros [= <-]. by rewrite app_nil_r, reverse_Permutation.
  - destruct (insert_pivot fn x sorted) as [sorted'|] eqn:Hins; simpl; [|done].
    intros Hres. rewrite (IH _ _ Hres), (insert_pivot_perm _ _ _ Hins).
    simpl. by rewrite <- Permutation_middle.
Qed.
End SortFacts.

Lemma StronglySorted_reverse {A} (R : relation A) l :
  StronglySorted (flip R) l → StronglySorted R (reverse l).
Proof.
  induction l as [|x l IH]; [intros; constructor|].
  rewrite StronglySorted_cons, reverse_cons. intros [Hx Hl].
  apply StronglySorted_app_2; [|by apply IH|repeat constructor].
  intros x1 x2 Hx1 ->%list_elem_of_singleton.
  rewrite Forall_forall in Hx. apply Hx. by apply elem_of_reverse.
Qed.

(** Sorting an array whose elements all lie in a domain [S] on which the
    comparator does not throw. *)
Section SortOnDomain.
Context `{rt : Runtime} {A : Type}.
Variable fn : A → A → completion value.
Variable S : A → Prop.
Hypothesis fn_total : ∀ x y, S x → S y → ∃ v, fn x y = Normal v.

Lemma sort_compare_on x y :
  S x → S y → sort_compare fn x y = Normal (order_of fn x y).
Proof.
  intros Hx Hy. unfold order_of, sort_compare.
  by destruct (fn_total x y Hx Hy) as [v ->].
Qed.

Lemma insert_pivot_on pivot sorted :
  S pivot → Forall S sorted →
  ∃ l1 l2,
    sorted = l1 ++ l2 ∧
    insert_pivot fn pivot sorted = Normal (l1 ++ pivot :: l2) ∧
    Forall (λ e, order_of fn pivot e < 0) l1 ∧
    (∀ h, head l2 = Some h → ¬ order_of fn pivot h < 0).
Proof.
  intros Hp Hs. apply insert_pivot_split. intros e He.
  apply sort_compare_on; [done|]. rewrite Forall_forall in Hs. by apply Hs.
Qed.

Lemma sort_loop_returns a sorted :
  Forall S a → Forall S sorted → ∃ res, sort_loop fn a sorted = Normal res.
Proof.
  revert sorted. induction a as [|x a IH]; intros sorted Ha Hs; simpl; [eauto|].
  apply Forall_cons in Ha as [Hx Ha].
  destruct (insert_pivot_on x sorted Hx Hs) as (l1 & l2 & -> & -> & _ & _).
  simpl. apply IH; [done|].
  apply Forall_app in Hs as [H1 H2]. apply Forall_app. split; [done|].
  by constructor.
Qed.



(** Where the pivot orders before every element already placed, it
    travels to the front; an array given in the opposite of its sorted
    order thus comes out reversed. *)
Lemma insert_pivot_front pivot sorted :
  S pivot → Forall S sorted →
  Forall (λ e, order_of fn pivot e < 0) sorted →
  insert_pivot fn pivot sorted = Normal (sorted ++ [pivot]).
Proof.
  intros Hp. induction sorted as [|e sorted IH]; intros Hs Hlt; [done|].
  apply Forall_cons in Hs as [He Hs]. apply Forall_cons in Hlt as [Hlt1 Hlt].
  simpl. rewrite sort_compare_on by done. simpl.
  destruct (Z.ltb_spec (order_of fn pivot e) 0); [|lia].
  by rewrite IH.
Qed.

Lemma sort_loop_reverses a sorted :
  Forall S (sorted ++ a) →
  StronglySorted (λ y x, order_of fn x y < 0) (sorted ++ a) →
  sort_loop fn a sorted = Normal (reverse (sorted ++ a)).
Proof.
  revert sorted. induction a as [|x a IH]; intros sorted HS Hsorted; simpl.
  - by rewrite app_nil_r.
  - assert (S x ∧ Forall S sorted) as [Hx Hs].
    { apply Forall_app in HS as [? [? ?]%Forall_cons]. done. }
    assert (Forall (λ e, order_of fn x e < 0) sorted) as Hfront.
    { apply Forall_forall. intros e He.
      apply (StronglySorted_app_1_elem_of (λ y x, order_of fn x y < 0)
               sorted (x :: a) e x Hsorted He). left. }
    rewrite (insert_pivot_front x sorted Hx Hs Hfront). simpl.
    rewrite IH; rewrite <- ?app_assoc; done.
Qed.

(** On a domain the comparator orders strictly and totally, the sorted
    array is strictly increasing. *)
Section Strict.
Hypothesis trans : ∀ x y z, S x → S y → S z →
  order_of fn x y < 0 → order_of fn y z < 0 → order_of fn x z < 0.
Hypothesis total : ∀ x y, S x → S y → x ≠ y →
  order_of fn x y < 0 ∨ order_of fn y x < 0.

Lemma insert_pivot_sorted pivot sorted :
  S pivot → Forall S sorted → pivot ∉ sorted →
  StronglySorted (λ y x, order_of fn x y < 0) sorted →
  ∃ res, insert_pivot fn pivot sorted = Normal res ∧
         StronglySorted (λ y x, order_of fn x y < 0) res.
Proof.
  intros Hp Hs Hnotin Hsorted.
  destruct (insert_pivot_on pivot sorted Hp Hs) as (l1 & l2 & -> & -> & Hl1 & Hl2).
  eexists. split; [done|].
  apply Forall_app in Hs as [Hs1 Hs2].
  apply StronglySorted_app in Hsorted as (H12 & Hsorted1 & Hsorted2).
  assert (Forall (λ e, order_of fn e pivot < 0) l2) as Hl2'.
  { destruct l2 as [|h l2]; [done|].
    assert (order_of fn h pivot < 0) as Hh.
    { apply Forall_cons in Hs2 as [Sh _].
      destruct (total pivot h) as [?|?]; [done|done| |by destruct (Hl2 h)|done].
      intros ->. apply Hnotin. apply elem_of_app. right. left. }
    constructor; [done|].
    apply StronglySorted_cons in Hsorted2 as [Hh2 _].
    apply Forall_cons in Hs2 as [Sh Hs2].
    rewrite Forall_forall in Hh2, Hs2 |- *. intros e He.
    apply (trans e h pivot); auto. }
  apply StronglySorted_app_2; [|done|].
  - intros x1 x2 Hx1 [->|Hx2]%elem_of_cons.
    + rewrite Forall_forall in Hl1. by apply Hl1.
    + by apply H12.
  - by apply StronglySorted_cons.
Qed.

Lemma sort_loop_sorted a sorted :
  Forall S (sorted ++ a) → NoDup (sorted ++ a) →
  StronglySorted (λ y x, order_of fn x y < 0) sorted →
  ∃ res, sort_loop fn a sorted = Normal res ∧
         StronglySorted (λ x y, order_of fn x y < 0) res.
Proof.
  revert sorted. induction a as [|x a IH]; intros sorted HS Hnd Hsorted; simpl.
  - eexists. split; [done|]. by apply StronglySorted_reverse.
  - assert (S x ∧ Forall S sorted ∧ Forall S a) as (Hx & Hs & Ha).
    { apply Forall_app in HS as [? [? ?]%Forall_cons]. done. }
    assert (x ∉ sorted) as Hnotin.
    { apply NoDup_app in Hnd as (_ & Hd & _). intros Hin.
      apply (Hd x Hin). left. }
    destruct (insert_pivot_sorted x sorted Hx Hs Hnotin Hsorted)
      as (s' & Hins & Hs').
    rewrite Hins. simpl.
    pose proof (insert_pivot_perm _ _ _ _ Hins) as Hperm.
    apply IH; [| |done].
    + rewrite Hperm. simpl. constructor; [done|]. by apply Forall_app.
    + rewrite Hperm. simpl. by rewrite Permutation_middle.
Qed.
End Strict.
End SortOnDomain.

(** ** The store *)

Section StoreFacts.
Implicit Types (this : HIBP.t) (a ws data : list record).

Lemma alloc_fresh a this : HIBP.heap this !! (HIBP.alloc a this).1 = None.
Proof. simpl. apply not_elem_of_dom, is_fresh. Qed.

Lemma deref_working this ws :
  HIBP.working this = Some ws →
  HIBP.deref (HIBP._breaches this) this = Normal ws.
Proof. unfold HIBP.working, HIBP.deref. by intros ->. Qed.

Lemma deref_working_inv this ws :
  HIBP.deref (HIBP._breaches this) this = Normal ws →
  HIBP.working this = Some ws.
Proof.
  unfold HIBP.working, HIBP.deref.
  destruct (HIBP._breaches this ≫= _); by intros [= ->].
Qed.

(** A fresh array installed as the working set. *)
Lemma working_alloc a this :
  HIBP.working (HIBP.set_breaches (HIBP.alloc a this).1 (HIBP.alloc a this).2)
  = Some a.
Proof. unfold HIBP.working. simpl. apply lookup_insert_eq. Qed.


(** The working array overwritten in place. *)
Lemma working_store r a this :
  HIBP._breaches this = Some r →
  HIBP.working (HIBP.set_breaches r (HIBP.store r a this)) = Some a.
Proof. intros _. unfold HIBP.working. simpl. apply lookup_insert_eq. Qed.



Lemma getBreaches_working data this :
  HIBP.working (HIBP.getBreaches data this) = Some data.
Proof.
  unfold HIBP.getBreaches, HIBP.working. simpl.
  set (b := fresh (dom (HIBP.heap this))).
  set (o := fresh (dom (<[b:=data]> (HIBP.heap this)))).
  assert (o ≠ b) as Hob.
  { intros Heq. apply (is_fresh (dom (<[b:=data]> (HIBP.heap this)))).
    fold o. rewrite Heq. apply elem_of_dom. rewrite lookup_insert_eq. eauto. }
  by rewrite lookup_insert_ne, lookup_insert_eq.
Qed.


(** ** The generic filter *)

Lemma array_filter_pure (p : record → bool) ws :
  array_filter (λ breach, Normal (VBool (p breach))) ws
  = Normal (filter (λ breach, p breach = true) ws).
Proof.
  induction ws as [|x ws IH]; [done|]. simpl. rewrite IH. simpl.
  destruct (p x) eqn:Hp.
  - by rewrite filter_cons_True.
  - rewrite filter_cons_False; [done|congruence].
Qed.

Lemma filter_returns fn this ws ws' :
  HIBP.working this = Some ws →
  array_filter (default (λ _, Normal (VBool true)) fn) ws = Normal ws' →
  returns (HIBP.filter fn this) ws'.
Proof.
  intros Hw Hf. unfold HIBP.filter. rewrite (deref_working _ _ Hw). simpl.
  rewrite Hf. split; [done|apply working_alloc].
Qed.

Lemma filter_pure_returns (p : record → bool) (P : record → Prop)
  `{!∀ x, Decision (P x)} this ws :
  HIBP.working this = Some ws →
  (∀ breach, p breach = true ↔ P breach) →
  returns (HIBP.filter (Some (λ breach, Normal (VBool (p breach)))) this)
          (filter P ws).
Proof.
  intros Hw HpP. apply (filter_returns _ _ ws); [done|]. simpl.
  rewrite array_filter_pure. f_equal. by apply list_filter_iff.
Qed.






End StoreFacts.

(** ** Reset and the snapshot *)



(** ** The terminal call *)

Lemma breaches_falsy this ws limit :
  HIBP.working this = Some ws →
  to_boolean (from_option VNum VUndef limit) = false →
  returned (HIBP.breaches limit this) = Some ws.
Proof.
  intros Hw Hf. unfold returned, HIBP.breaches. rewrite Hf. simpl.
  unfold HIBP.working in Hw. by destruct (HIBP._breaches this).
Qed.

Lemma breaches_truthy this ws n :
  HIBP.working this = Some ws →
  n ≠ 0 →
  returned (HIBP.breaches (Some (Int n)) this) = Some (slice0 (Int n) ws).
Proof.
  intros Hw Hn. unfold returned, HIBP.breaches. simpl.
  destruct (Z.eqb_spec n 0); [done|]. simpl.
  rewrite (deref_working _ _ Hw). simpl. apply lookup_insert_eq.
Qed.

(** C4: [breaches()] and [breaches(0)] return the whole working set, and
    [breaches(n)] for a positive integer [n] returns its first [n] breaches,
    which is all of them once [n] reaches the length. *)
Theorem breaches_limit (this : HIBP.t) (ws : list record) :
  HIBP.working this = Some ws →
  returned (HIBP.breaches None this) = Some ws ∧
  returned (HIBP.breaches (Some (Int 0)) this) = Some ws ∧
  ∀ n : Z, 0 < n →
    returned (HIBP.breaches (Some (Int n)) this) = Some (take (Z.to_nat n) ws) ∧
    (Z.of_nat (length ws) ≤ n → take (Z.to_nat n) ws = ws).
Proof.
  intros Hw. repeat split.
  - by apply breaches_falsy.
  - by apply breaches_falsy.
  - rewrite (breaches_truthy this ws n Hw) by lia. f_equal.
    unfold slice0. destruct (Z.ltb_spec n 0); [lia|].
    destruct (Z.min_spec n (Z.of_nat (length ws))) as [[? ->]|[? ->]]; [done|].
    rewrite Nat2Z.id, !take_ge; [done|lia..].
  - intros Hlen. apply take_ge. lia.
Qed.

Lemma breaches_limit_witness :
  returned (HIBP.breaches None fixture_loaded) = Some fixture ∧
  returned (HIBP.breaches (Some (Int 0)) fixture_loaded) = Some fixture ∧
  returned (HIBP.breaches (Some (Int 2)) fixture_loaded) = Some [adobe; estonia].
Proof.
  destruct (breaches_limit fixture_loaded fixture) as (H1 & H2 & H3).
  - apply getBreaches_working.
  - split; [exact H1|]. split; [exact H2|].
    destruct (H3 2) as [H4 _]; [lia|]. exact H4.
Defined.

(** C10: for a negative integer limit [n], [breaches(n)] returns the first
    [max (L - |n|) 0] breaches of a working set of length [L]. *)
Theorem breaches_negative_limit (this : HIBP.t) (ws : list record) (n : Z) :
  HIBP.working this = Some ws →
  n < 0 →
  returned (HIBP.breaches (Some (Int n)) this)
  = Some (take (Z.to_nat (Z.max (Z.of_nat (length ws) - Z.abs n) 0)) ws).
Proof.
  intros Hw Hn. rewrite (breaches_truthy this ws n Hw) by lia. f_equal.
  unfold slice0. destruct (Z.ltb_spec n 0); [|lia].
  do 2 f_equal. lia.
Qed.

Lemma breaches_negative_limit_witness :
  returned (HIBP.breaches (Some (Int (-3))) fixture_loaded) = Some [adobe].
Proof.
  apply (breaches_negative_limit fixture_loaded fixture (-3)).
  - apply getBreaches_working.
  - lia.
Defined.

(** ** The named filters *)

(** C5: [hasDomain(d)] keeps exactly the breaches whose [Domain] is the
    string [d] (the empty string included), [hasDomain()] keeps exactly
    those whose [Domain] is not the empty string, and no breach is in both
    the result of [hasDomain("")] and the result of [hasDomain()]. *)
Theorem hasDomain_exact_or_nonempty (this : HIBP.t) (ws : list record) :
  HIBP.working this = Some ws →
  (∀ d : string,
     returns (HIBP.hasDomain (Some d) this)
             (filter (λ breach, get breach "Domain" = VStr d) ws)) ∧
  returns (HIBP.hasDomain None this)
          (filter (λ breach, get breach "Domain" ≠ VStr "") ws) ∧
  (∀ this1 this2 ws1 ws2,
     HIBP.hasDomain (Some "") this = (Normal (), this1) →
     HIBP.working this1 = Some ws1 →
     HIBP.hasDomain None this = (Normal (), this2) →
     HIBP.working this2 = Some ws2 →
     ∀ breach, breach ∈ ws1 → breach ∉ ws2).
Proof.
  intros Hw.
  assert (∀ d, returns (HIBP.hasDomain (Some d) this)
                 (filter (λ breach, get breach "Domain" = VStr d) ws)) as Hsome.
  { intros d. apply filter_pure_returns; [done|]. intros b.
    unfold strict_eq_string. destruct (get b "Domain"); try by split.
    rewrite bool_decide_eq_true. split; congruence. }
  assert (returns (HIBP.hasDomain None this)
            (filter (λ breach, get breach "Domain" ≠ VStr "") ws)) as Hnone.
  { apply filter_pure_returns; [done|]. intros b.
    unfold strict_eq_string. destruct (get b "Domain"); try by split.
    rewrite negb_true_iff, bool_decide_eq_false. split; congruence. }
  split; [done|]. split; [done|].
  intros this1 this2 ws1 ws2 H1 Hw1 H2 Hw2 b Hb1 Hb2.
  destruct (Hsome "") as [_ Hs]. destruct Hnone as [_ Hn].
  rewrite H1 in Hs. rewrite H2 in Hn. simpl in *.
  assert (ws1 = filter (λ breach, get breach "Domain" = VStr "") ws) as -> by congruence.
  assert (ws2 = filter (λ breach, get breach "Domain" ≠ VStr "") ws) as -> by congruence.
  apply list_elem_of_filter in Hb1 as [Heq _].
  apply list_elem_of_filter in Hb2 as [Hne _]. done.
Qed.

Lemma hasDomain_exact_or_nonempty_witness :
  returns (HIBP.hasDomain (Some "") fixture_loaded) [estonia; masterDeeds] ∧
  returns (HIBP.hasDomain None fixture_loaded) [adobe; fling].
Proof.
  destruct (hasDomain_exact_or_nonempty fixture_loaded fixture) as (H1 & H2 & _).
  - apply getBreaches_working.
  - split; [exact (H1 "")|exact H2].
Defined.

(** C9: [name()] without names returns and leaves the empty working
    set. *)
Theorem name_without_names_empties (this : HIBP.t) (ws : list record) :
  HIBP.working this = Some ws →
  returns (HIBP.name [] this) [].
Proof.
  intros Hw.
  assert (filter (λ _ : record, False) ws = []) as <-.
  { clear Hw. induction ws as [|x ws IH]; [done|].
    rewrite filter_cons_False; [done|tauto]. }
  apply filter_pure_returns; [done|]. intros b. simpl.
  unfold array_includes. by destruct (get b "Name").
Qed.

Lemma name_without_names_empties_witness :
  returns (HIBP.name [] fixture_loaded) [].
Proof.
  apply (name_without_names_empties fixture_loaded fixture).
  apply getBreaches_working.
Defined.

Lemma hasDataClass_loop_returns (dataClasses : list string) :
  ∀ (this : HIBP.t) (ws : list record),
    HIBP.working this = Some ws →
    Forall (λ breach, ∃ l, get breach "DataClasses" = VArr l) ws →
    returns (HIBP.hasDataClass_loop dataClasses this)
            (filter (λ breach, Forall (λ c, c ∈ data_classes breach) dataClasses) ws).
Proof.
  induction dataClasses as [|c cs IH]; intros this ws Hw Harr.
  - split; [done|]. simpl. rewrite Hw. f_equal. clear.
    induction ws as [|x ws IHws]; [done|].
    rewrite filter_cons_True by constructor. by f_equal.
  - simpl.
    set (fn := λ breach : record,
           includes (get breach "DataClasses") c ≫= λ b, Normal (VBool b)).
    assert (array_filter fn ws
            = Normal (filter (λ breach, c ∈ data_classes breach) ws)) as Hf.
    { clear -Harr. induction Harr as [|x ws [l Hl] _ IHws]; [done|].
      simpl. rewrite IHws. unfold fn at 1, data_classes at 2. rewrite Hl. simpl.
      case_bool_decide.
      - by rewrite filter_cons_True by (unfold data_classes; by rewrite Hl).
      - by rewrite filter_cons_False by (unfold data_classes; by rewrite Hl). }
    destruct (filter_returns (Some fn) this ws _ Hw Hf) as [Hn Hw'].
    destruct (HIBP.filter (Some fn) this) as [[[]|e] this']; [|done].
    simpl in Hw'.
    assert (Forall (λ breach, ∃ l, get breach "DataClasses" = VArr l)
              (filter (λ breach, c ∈ data_classes breach) ws)) as Harr'.
    { rewrite Forall_forall in Harr |- *.
      intros b [_ Hb]%list_elem_of_filter. by apply Harr. }
    destruct (IH this' _ Hw' Harr') as [Hn2 Hw2].
    split; [done|]. rewrite Hw2. f_equal.
    rewrite list_filter_filter. apply list_filter_iff.
    intros b. rewrite Forall_cons. tauto.
Qed.

(** C6: on a working set whose breaches carry a [DataClasses] array,
    [hasDataClass] with any list of requested classes (given flat or in
    arrays) returns and keeps, in their order, exactly the breaches whose
    [DataClasses] contains every requested class. *)
Theorem hasDataClass_conjunction (this : HIBP.t) (ws : list record)
  (dataClasses : list arg) :
  HIBP.working this = Some ws →
  Forall (λ breach, ∃ l, get breach "DataClasses" = VArr l) ws →
  returns (HIBP.hasDataClass dataClasses this)
          (filter (λ breach, Forall (λ c, c ∈ data_classes breach) (flat dataClasses)) ws).
Proof. intros Hw Harr. by apply hasDataClass_loop_returns. Qed.

Lemma hasDataClass_conjunction_witness :
  returns (HIBP.hasDataClass [Str "names"; Arr ["job-titles"; "phone-numbers"]]
                             fixture_loaded)
          [masterDeeds].
Proof.
  apply (hasDataClass_conjunction fixture_loaded fixture
           [Str "names"; Arr ["job-titles"; "phone-numbers"]]).
  - apply getBreaches_working.
  - repeat constructor; eexists; reflexivity.
Defined.

(** ** The comparator of [sort] *)

Lemma types_known key ty :
  HIBP.types !! key = Some ty →
  (key, ty) ∈
    [ ("AddedDate", HIBP.SDate); ("BreachDate", HIBP.SDate);
      ("Domain", HIBP.SString); ("IsFabricated", HIBP.SBoolean);
      ("IsRetired", HIBP.SBoolean); ("IsSensitive", HIBP.SBoolean);
      ("IsSpamList", HIBP.SBoolean); ("IsVerified", HIBP.SBoolean);
      ("ModifiedDate", HIBP.SDate); ("Name", HIBP.SString);
      ("PwnCount", HIBP.SNumber) ].
Proof. apply elem_of_list_to_map_2. Qed.

(** Case analysis on a key of [HIBP.types]. *)
Ltac known_key H :=
  apply types_known in H;
  repeat (apply elem_of_cons in H as [H|H]; [injection H as -> ->|]);
  [..|by apply elem_of_nil in H].

Lemma known_key_no_minus key ty :
  HIBP.types !! key = Some ty → startsWith_minus key = false.
Proof. intros H. known_key H; reflexivity. Qed.

Lemma well_formed_field breach key ty :
  HIBP.well_formed breach = true →
  (key, ty) ∈ HIBP.schema →
  HIBP.has_type ty (get breach key) = true.
Proof.
  unfold HIBP.well_formed. rewrite forallb_forall. intros Hwf Hin.
  apply (Hwf (key, ty)). by apply list_elem_of_In.
Qed.

Ltac in_schema :=
  unfold HIBP.schema;
  solve [repeat (first [apply list_elem_of_here | apply list_elem_of_further])].

(** A well-formed breach holds, at a key of [HIBP.types], a value of the
    kind the table names. *)
Lemma known_key_typed key ty breach :
  HIBP.types !! key = Some ty →
  HIBP.well_formed breach = true →
  match ty with
  | HIBP.SDate => ∃ t, get breach key = VDate (Int t)
  | HIBP.SBoolean => ∃ b, get breach key = VBool b
  | HIBP.SNumber => ∃ z, get breach key = VNum (Int z)
  | HIBP.SString => ∃ s, get breach key = VStr s
  end.
Proof.
  intros H Hwf.
  known_key H;
    match goal with
    | |- context [get breach ?k] =>
        first
          [ assert (Hf := well_formed_field breach k HIBP.FDate Hwf ltac:(in_schema))
          | assert (Hf := well_formed_field breach k HIBP.FString Hwf ltac:(in_schema))
          | assert (Hf := well_formed_field breach k HIBP.FHostname Hwf ltac:(in_schema))
          | assert (Hf := well_formed_field breach k HIBP.FBoolean Hwf ltac:(in_schema))
          | assert (Hf := well_formed_field breach k HIBP.FInteger Hwf ltac:(in_schema)) ];
        destruct (get breach k) as [| |[|]| |[|]|]; try discriminate; eauto
    end.
Qed.

Lemma StronglySorted_impl_on {A} (R R' : relation A) l :
  (∀ x y, x ∈ l → y ∈ l → R x y → R' x y) →
  StronglySorted R l → StronglySorted R' l.
Proof.
  induction l as [|x l IH]; intros Himpl Hs; [constructor|].
  apply StronglySorted_cons in Hs as [Hx Hl]. apply StronglySorted_cons. split.
  - rewrite Forall_forall in Hx |- *. intros y Hy.
    apply Himpl; [left|by right|by apply Hx].
  - apply IH; [|done]. intros y z Hy Hz. apply Himpl; by right.
Qed.


Lemma NoDup_fmap_eq {A B} (f : A → B) l x y :
  NoDup (f <$> l) → x ∈ l → y ∈ l → f x = f y → x = y.
Proof.
  intros Hnd [i Hi]%list_elem_of_lookup [j Hj]%list_elem_of_lookup Heq.
  assert (i = j) as ->.
  { apply (NoDup_lookup (f <$> l) i j (f x)); [done|..].
    - by rewrite list_lookup_fmap, Hi.
    - by rewrite list_lookup_fmap, Hj, Heq. }
  congruence.
Qed.

Section ComparatorFacts.
Context `{rt : Runtime}.
Implicit Types (a b c : record) (ws : list record).

Lemma sort_fn_well_formed key ty d a b :
  HIBP.types !! key = Some ty →
  HIBP.well_formed a = true → HIBP.well_formed b = true →
  HIBP.sort_fn key (Some ty) d a b
  = Normal (VNum (num_mul (Int (key_order key ty a b)) (HIBP.direction_to_number d))).
Proof.
  intros Hk Ha Hb.
  pose proof (known_key_typed key ty a Hk Ha) as Hta.
  pose proof (known_key_typed key ty b Hk Hb) as Htb.
  unfold HIBP.sort_fn, key_order.
  destruct ty; destruct Hta as [va ->]; destruct Htb as [vb ->]; done.
Qed.

Lemma order_of_sort_fn key ty d a b :
  HIBP.types !! key = Some ty →
  HIBP.well_formed a = true → HIBP.well_formed b = true →
  order_of (HIBP.sort_fn key (Some ty) d) a b
  = match HIBP.direction_to_number d with
    | Int z => key_order key ty a b * z
    | NaN => 0
    end.
Proof.
  intros Hk Ha Hb. unfold order_of, sort_compare.
  rewrite sort_fn_well_formed by done. simpl.
  by destruct (HIBP.direction_to_number d).
Qed.

(** The comparator is total on well-formed breaches, whatever the key. *)
Lemma comparator_well_formed key d a b :
  HIBP.well_formed a = true → HIBP.well_formed b = true →
  ∃ v, HIBP.comparator key d a b = Normal v.
Proof.
  intros Ha Hb. unfold HIBP.comparator.
  destruct (HIBP.types !! _) as [ty|] eqn:Hk; [|by eexists].
  rewrite sort_fn_well_formed by done. by eexists.
Qed.

(** At a numeric key the order is the difference of two numbers that
    determine the values. *)
Lemma key_order_numeric key ty a b :
  HIBP.types !! key = Some ty → ty ≠ HIBP.SString →
  HIBP.well_formed a = true → HIBP.well_formed b = true →
  key_order key ty a b = key_number key a - key_number key b ∧
  (key_number key a = key_number key b → get a key = get b key).
Proof.
  intros Hk Hty Ha Hb.
  pose proof (known_key_typed key ty a Hk Ha) as Hta.
  pose proof (known_key_typed key ty b Hk Hb) as Htb.
  unfold key_order, key_number.
  destruct ty; [| | |done]; destruct Hta as [va ->]; destruct Htb as [vb ->]; simpl.
  - split; [done|congruence].
  - split; [done|]. destruct va, vb; done.
  - split; [done|congruence].
Qed.

Lemma key_order_sgn key ty a b :
  HIBP.types !! key = Some ty →
  HIBP.well_formed a = true → HIBP.well_formed b = true →
  Z.sgn (key_order key ty b a) = - Z.sgn (key_order key ty a b).
Proof.
  intros Hk Ha Hb. destruct (decide (ty = HIBP.SString)) as [->|Hty].
  - apply localeCompare_antisym.
  - destruct (key_order_numeric key ty a b Hk Hty Ha Hb) as [-> _].
    destruct (key_order_numeric key ty b a Hk Hty Hb Ha) as [-> _]. lia.
Qed.

Lemma key_order_trans key ty a b c :
  HIBP.types !! key = Some ty →
  HIBP.well_formed a = true → HIBP.well_formed b = true →
  HIBP.well_formed c = true →
  key_order key ty a b ≤ 0 → key_order key ty b c ≤ 0 →
  key_order key ty a c ≤ 0.
Proof.
  intros Hk Ha Hb Hc. destruct (decide (ty = HIBP.SString)) as [->|Hty].
  - apply localeCompare_trans.
  - destruct (key_order_numeric key ty a b Hk Hty Ha Hb) as [-> _].
    destruct (key_order_numeric key ty b c Hk Hty Hb Hc) as [-> _].
    destruct (key_order_numeric key ty a c Hk Hty Ha Hc) as [-> _]. lia.
Qed.


(** The strict order is transitive. *)
Lemma key_order_lt_trans key ty a b c :
  HIBP.types !! key = Some ty →
  HIBP.well_formed a = true → HIBP.well_formed b = true →
  HIBP.well_formed c = true →
  key_order key ty a b < 0 → key_order key ty b c < 0 →
  key_order key ty a c < 0.
Proof.
  intros Hk Ha Hb Hc Hab Hbc.
  pose proof (key_order_trans key ty a b c Hk Ha Hb Hc) as Hac.
  pose proof (key_order_trans key ty c a b Hk Hc Ha Hb) as Hcb.
  pose proof (key_order_sgn key ty a c Hk Ha Hc) as Hca.
  pose proof (key_order_sgn key ty b c Hk Hb Hc) as Hcb'.
  lia.
Qed.

(** Breaches that compare equal hold the same value, provided the
    collation does not tie their two strings when the key is a string
    key. *)
Lemma key_order_zero key ty a b :
  HIBP.types !! key = Some ty →
  HIBP.well_formed a = true → HIBP.well_formed b = true →
  (ty = HIBP.SString →
   localeCompare (to_string (get a key)) (to_string (get b key)) = 0 →
   get a key = get b key) →
  key_order key ty a b = 0 → get a key = get b key.
Proof.
  intros Hk Ha Hb Hsep. destruct (decide (ty = HIBP.SString)) as [->|Hty].
  - by apply Hsep.
  - destruct (key_order_numeric key ty a b Hk Hty Ha Hb) as [-> Heq].
    intros H0. apply Heq. lia.
Qed.


(** The comparator of [sort(key)] and of [sort("-" + key)] for a key of
    the table. *)
Lemma comparator_known key ty :
  HIBP.types !! key = Some ty →
  HIBP.comparator (Some key) None = HIBP.sort_fn key (Some ty) (DNum (Int 1)).
Proof.
  intros Hk. unfold HIBP.comparator, HIBP.sort_key, HIBP.sort_key_direction.
  simpl. rewrite (known_key_no_minus key ty Hk), Hk. reflexivity.
Qed.

Lemma comparator_minus key ty d :
  HIBP.types !! key = Some ty →
  HIBP.comparator (Some ("-" +:+ key)) d
  = HIBP.sort_fn key (Some ty) (DNum (Int (-1))).
Proof.
  intros Hk.
  change (HIBP.comparator (Some ("-" +:+ key)) d)
    with (HIBP.sort_fn key (HIBP.types !! key) (DNum (Int (-1)))).
  by rewrite Hk.
Qed.

Lemma sort_returns key d this ws ws' :
  HIBP.working this = Some ws →
  array_sort (HIBP.comparator key d) ws = Normal ws' →
  returns (HIBP.sort key d this) ws'.
Proof.
  intros Hw Hs. unfold HIBP.sort. rewrite (deref_working _ _ Hw). simpl.
  rewrite Hs. unfold HIBP.working in Hw.
  destruct (HIBP._breaches this) as [r|] eqn:Hr; [|done].
  split; [done|]. by apply working_store.
Qed.
End ComparatorFacts.

(** ** Sorting *)

Lemma array_sort_returns `{rt : Runtime} fn (S : record → Prop) ws :
  (∀ x y, S x → S y → ∃ v, fn x y = Normal v) →
  Forall S ws →
  ∃ ws', array_sort fn ws = Normal ws' ∧ ws' ≡ₚ ws.
Proof.
  intros Htotal HS.
  destruct (sort_loop_returns fn S Htotal ws [] HS) as [res Hres]; [constructor|].
  exists res. split; [done|]. apply (sort_loop_perm fn _ _ _ Hres).
Qed.

(** C2: for a key whose lookup in [HIBP.types] (after the minus prefix is
    stripped) finds nothing, the comparator [sort] builds returns the
    boolean [true], a truthy value that is no number, for every pair of
    breaches, and the [sort] call returns, leaving a permutation of the
    working set. *)
Theorem unknown_key_comparator `{rt : Runtime}
  (key : string) (d : option direction) :
  HIBP.types !! HIBP.sort_key key = None →
  (∀ a b : record, HIBP.comparator (Some key) d a b = Normal (VBool true)) ∧
  to_boolean (VBool true) = true ∧
  (∀ (this : HIBP.t) (ws : list record),
     HIBP.working this = Some ws →
     ∃ ws', returns (HIBP.sort (Some key) d this) ws' ∧ ws' ≡ₚ ws).
Proof.
  intros Hk.
  assert (∀ a b : record, HIBP.comparator (Some key) d a b = Normal (VBool true))
    as Hfn.
  { intros a b. unfold HIBP.comparator. simpl. by rewrite Hk. }
  split; [done|]. split; [done|]. intros this ws Hw.
  destruct (array_sort_returns (HIBP.comparator (Some key) d) (λ _, True) ws)
    as (ws' & Hs & Hp).
  - intros x y _ _. rewrite Hfn. by eexists.
  - by apply Forall_true.
  - exists ws'. split; [|done]. by apply (sort_returns _ _ _ ws).
Qed.

Lemma unknown_key_comparator_witness :
  HIBP.comparator (Some "Severity") (Some (DStr "desc")) adobe fling
    = Normal (VBool true) ∧
  ∃ ws', returns (HIBP.sort (Some "Severity") (Some (DStr "desc")) fixture_loaded) ws'
         ∧ ws' ≡ₚ fixture.
Proof.
  destruct (unknown_key_comparator "Severity" (Some (DStr "desc")))
    as (H1 & _ & H2).
  - reflexivity.
  - split; [apply H1|]. apply H2, getBreaches_working.
Defined.



(** ** Calls on well-formed breaches *)

Lemma array_filter_returns (fn : record → completion value) ws :
  (∀ breach, breach ∈ ws → ∃ v, fn breach = Normal v) →
  ∃ ws', array_filter fn ws = Normal ws'.
Proof.
  induction ws as [|x ws IH]; intros Hfn; [by eexists|].
  simpl. destruct (Hfn x) as [v ->]; [left|].
  destruct IH as [ws' ->]; [|by eexists].
  intros b Hb. apply Hfn. by right.
Qed.

Lemma well_formed_data_classes ws :
  Forall (λ breach, HIBP.well_formed breach = true) ws →
  Forall (λ breach, ∃ l, get breach "DataClasses" = VArr l) ws.
Proof.
  intros Hall. eapply Forall_impl; [exact Hall|]. simpl. intros b Hwf.
  assert (Hf := well_formed_field b "DataClasses" HIBP.FStrings Hwf ltac:(in_schema)).
  destruct (get b "DataClasses") as [| |[|]| |[|]|]; try discriminate. eauto.
Qed.

(** C8: on a working set of well-formed breaches, every filter (a custom
    predicate that does not throw, or a named filter), every [pluck] and
    every [sort] returns; in particular the comparator of a date key
    returns a number on any two breaches of the working set. *)
Theorem well_formed_calls_return `{rt : Runtime}
  (this : HIBP.t) (ws : list record) (c : call) :
  HIBP.working this = Some ws →
  Forall (λ breach, HIBP.well_formed breach = true) ws →
  quiet c ws →
  (invoke c this).1 = Normal () ∧
  (∀ key d a b,
     HIBP.types !! HIBP.sort_key key = Some HIBP.SDate →
     a ∈ ws → b ∈ ws →
     ∃ n, HIBP.comparator (Some key) d a b = Normal (VNum n)).
Proof.
  intros Hw Hwf Hq. split.
  - destruct c as [[fn|]| | | | | | | | | |]; simpl;
      try (unfold HIBP.isFabricated, HIBP.isRetired, HIBP.isSensitive,
             HIBP.isSpamList, HIBP.isVerified, HIBP._boolProp,
             HIBP.hasDomain, HIBP.name;
           match goal with
           | |- (HIBP.filter (Some ?f) this).1 = _ =>
               destruct (array_filter_returns f ws) as [ws' Hf];
               [intros; by destruct domain + idtac; eexists|];
               by apply (filter_returns (Some f) this ws ws' Hw Hf)
           end).
    + destruct (array_filter_returns fn ws Hq) as [ws' Hf].
      by apply (filter_returns (Some fn) this ws ws' Hw Hf).
    + destruct (array_filter_returns (λ _, Normal (VBool true)) ws) as [ws' Hf];
        [by eexists|].
      by apply (filter_returns None this ws ws' Hw Hf).
    + apply (hasDataClass_loop_returns (flat dataClasses) this ws Hw).
      by apply well_formed_data_classes.
    + unfold HIBP.pluck. by rewrite (deref_working _ _ Hw).
    + destruct (array_sort_returns (HIBP.comparator key d)
                  (λ breach, HIBP.well_formed breach = true) ws)
        as (ws' & Hs & _); [|done|].
      * intros x y Hx Hy. by apply comparator_well_formed.
      * by apply (sort_returns key d this ws ws' Hw Hs).
  - intros key d a b Hk Ha Hb. rewrite Forall_forall in Hwf.
    unfold HIBP.comparator. simpl. rewrite Hk.
    rewrite sort_fn_well_formed by auto. by eexists.
Qed.

Lemma well_formed_calls_return_witness :
  (invoke (Sort (Some "-BreachDate") (Some (DStr "asc"))) fixture_loaded).1
    = Normal () ∧
  (∀ key d a b,
     HIBP.types !! HIBP.sort_key key = Some HIBP.SDate →
     a ∈ fixture → b ∈ fixture →
     ∃ n, HIBP.comparator (Some key) d a b = Normal (VNum n)).
Proof.
  apply (well_formed_calls_return fixture_loaded fixture
           (Sort (Some "-BreachDate") (Some (DStr "asc")))).
  - apply getBreaches_working.
  - repeat constructor.
  - exact I.
Defined.

(** ** Ascending, then descending *)

(** C1 (as amended): on a working set of well-formed breaches whose values
    at a key of [HIBP.types] are pairwise distinct and, at a string key,
    not tied by [localeCompare], [sort(key)] returns with a permutation
    [asc] of the working set, and [sort("-" + key)] called next (with any
    direction argument) returns with the reverse of [asc]. *)
Theorem sort_then_minus_sort_reverses `{rt : Runtime}
  (this : HIBP.t) (ws : list record) (key : string) (ty : HIBP.sort_type)
  (d : option direction) :
  HIBP.working this = Some ws →
  Forall (λ breach, HIBP.well_formed breach = true) ws →
  HIBP.types !! key = Some ty →
  NoDup ((λ breach, get breach key) <$> ws) →
  (ty = HIBP.SString →
   ∀ a b, a ∈ ws → b ∈ ws →
     localeCompare (to_string (get a key)) (to_string (get b key)) = 0 →
     get a key = get b key) →
  ∃ asc,
    returns (HIBP.sort (Some key) None this) asc ∧
    asc ≡ₚ ws ∧
    returns (HIBP.sort (Some ("-" +:+ key)) d (HIBP.sort (Some key) None this).2)
            (reverse asc).
Proof.
  intros Hw Hwf Hk Hnd Hsep.
  set (S := λ breach : record, breach ∈ ws).
  assert (∀ x, S x → HIBP.well_formed x = true) as HSwf.
  { intros x Hx. rewrite Forall_forall in Hwf. by apply Hwf. }
  assert (Forall S ws) as HS by (by apply Forall_forall).
  set (up := HIBP.sort_fn key (Some ty) (DNum (Int 1))).
  set (down := HIBP.sort_fn key (Some ty) (DNum (Int (-1)))).
  assert (∀ x y, S x → S y → order_of up x y = key_order key ty x y) as Hup.
  { intros x y Hx Hy. unfold up. rewrite order_of_sort_fn by auto. simpl. lia. }
  assert (∀ x y, S x → S y → order_of down x y = - key_order key ty x y) as Hdown.
  { intros x y Hx Hy. unfold down. rewrite order_of_sort_fn by auto. simpl. lia. }
  assert (∀ fn, fn = up ∨ fn = down →
            ∀ x y, S x → S y → ∃ v, fn x y = Normal v) as Htotal.
  { intros fn [->| ->] x y Hx Hy; unfold up, down;
      rewrite sort_fn_well_formed by auto; by eexists. }
  (* the first call *)
  destruct (sort_loop_sorted up S (Htotal up (or_introl eq_refl))) with
    (a := ws) (sorted := @nil record) as (asc & Hasc & Hsorted).
  { intros x y z Hx Hy Hz. rewrite !Hup by done.
    apply key_order_lt_trans; auto. }
  { intros x y Hx Hy Hne. rewrite !Hup by done.
    pose proof (key_order_sgn key ty x y Hk (HSwf x Hx) (HSwf y Hy)).
    destruct (decide (key_order key ty x y = 0)) as [H0|H0]; [|lia].
    destruct Hne.
    apply (NoDup_fmap_eq (λ breach, get breach key) ws x y Hnd Hx Hy).
    apply (key_order_zero key ty x y Hk); auto. }
  { done. }
  { simpl. by apply NoDup_fmap_1 in Hnd. }
  { constructor. }
  pose proof (sort_loop_perm up _ _ _ Hasc) as Hperm. simpl in Hperm.
  exists asc.
  assert (returns (HIBP.sort (Some key) None this) asc) as Hfirst.
  { apply (sort_returns _ _ _ ws); [done|].
    by rewrite (comparator_known key ty Hk). }
  split; [done|]. split; [done|].
  (* the second call *)
  apply (sort_returns _ _ _ asc); [apply Hfirst|].
  rewrite (comparator_minus key ty d Hk). fold down.
  apply (sort_loop_reverses down S (Htotal down (or_intror eq_refl)) asc []).
  - simpl. by rewrite Hperm.
  - simpl. eapply StronglySorted_impl_on; [|exact Hsorted].
    intros x y Hx Hy. simpl.
    assert (S x ∧ S y) as [Sx Sy] by (unfold S; by rewrite <- !Hperm).
    rewrite Hup, Hdown by done.
    pose proof (key_order_sgn key ty x y Hk (HSwf x Sx) (HSwf y Sy)). lia.
Qed.

Lemma code_unit_compare_separates (s1 s2 : string) :
  code_unit_compare s1 s2 = 0 → s1 = s2.
Proof.
  unfold code_unit_compare.
  destruct (String.compare s1 s2) eqn:Hc; [|done..].
  intros _. by apply String.compare_eq_iff.
Qed.

Lemma sort_then_minus_sort_reverses_witness :
  ∃ asc,
    returns (HIBP.sort (Some "Name") None fixture_loaded) asc ∧
    asc ≡ₚ fixture ∧
    returns (HIBP.sort (Some "-Name") (Some (DNum (Int 1)))
               (HIBP.sort (Some "Name") None fixture_loaded).2)
            (reverse asc).
Proof.
  apply (sort_then_minus_sort_reverses fixture_loaded fixture "Name"
           HIBP.SString (Some (DNum (Int 1)))).
  - apply getBreaches_working.
  - repeat constructor.
  - reflexivity.
  - apply (bool_decide_unpack _). vm_compute. exact I.
  - intros _ a b Ha Hb Hc. apply code_unit_compare_separates in Hc.
    unfold fixture in Ha, Hb.
    repeat (apply elem_of_cons in Ha as [->|Ha]);
      try (by apply elem_of_nil in Ha);
      repeat (apply elem_of_cons in Hb as [->|Hb]);
      try (by apply elem_of_nil in Hb);
      vm_compute in Hc; first [reflexivity | discriminate Hc].
Defined.

(** The claim without the condition on the collation fails: with a
    collation that honours canonical equivalence, two loaded, well-formed
    breaches whose names are distinct strings tie, both [sort("Name")] and
    [sort("-Name")] leave them in load order, and that order is not its
    own reverse. *)
Lemma sort_then_minus_sort_reverses_counterexample :
  let ws := [cafe_composed; cafe_decomposed] in
  let this := HIBP.getBreaches ws HIBP.new in
  let first := HIBP.sort (rt := canonical_runtime) (Some "Name") None this in
  let second := HIBP.sort (rt := canonical_runtime) (Some "-Name") None first.2 in
  HIBP.working this = Some ws ∧
  Forall (λ breach, HIBP.well_formed breach = true) ws ∧
  HIBP.types !! "Name" = Some HIBP.SString ∧
  NoDup ((λ breach, get breach "Name") <$> ws) ∧
  returns first ws ∧
  returns second ws ∧
  ¬ ∃ asc, returns first asc ∧ returns second (reverse asc).
Proof.
  intros ws this first second.
  assert (returns first ws) as Hfirst by (split; vm_compute; reflexivity).
  assert (returns second ws) as Hsecond by (split; vm_compute; reflexivity).
  split; [apply getBreaches_working|].
  split; [repeat constructor|].
  split; [reflexivity|].
  split; [apply (bool_decide_unpack _); vm_compute; exact I|].
  split; [done|]. split; [done|].
  intros (asc & [_ Ha] & [_ Hr]).
  destruct Hfirst as [_ Hf]. destruct Hsecond as [_ Hs].
  assert (asc = ws) as -> by congruence.
  assert (reverse ws = ws) as Hrev by congruence.
  assert ((λ breach : record, get breach "Name") <$> reverse ws
          = (λ breach : record, get breach "Name") <$> ws) as Hnames
    by (by rewrite Hrev).
  vm_compute in Hnames. discriminate Hnames.
Qed.

(** ** The class at work on the fixture *)

(** The chain of the demo script. *)
Example demo_chain :
  let this :=
    invoke_all
      [ Name [Str "MasterDeeds"; Str "Estonia"; Str "WienerBuchereien";
              Str "Adobe"; Str "LinkedIn"];
        HasDomain (Some "");
        IsSensitive (Some false);
        IsVerified None;
        HasDataClass [Str "names"; Str "job-titles"];
        Sort (Some "-PwnCount") None;
        Pluck [Str "Name"; Str "PwnCount"] ]
      fixture_loaded in
  returned (HIBP.breaches None this)
  = Some [ {[ "Name" := VStr "MasterDeeds"; "PwnCount" := VNum (Int 2257930) ]};
           {[ "Name" := VStr "Estonia"; "PwnCount" := VNum (Int 655161) ]} ].
Proof. vm_compute. reflexivity. Qed.

(** Ties keep their places: the three breaches that are not sensitive. *)
Example sort_by_flag_descending :
  working_names (HIBP.sort (Some "-IsSensitive") None fixture_loaded).2
  = Some [VStr "Fling"; VStr "Adobe"; VStr "Estonia"; VStr "MasterDeeds"].
Proof. vm_compute. reflexivity. Qed.

Example sort_default_key :
  working_names (HIBP.sort None None fixture_loaded).2
  = Some [VStr "Adobe"; VStr "Fling"; VStr "MasterDeeds"; VStr "Estonia"].
Proof. vm_compute. reflexivity. Qed.

Example sort_direction_desc :
  working_names (HIBP.sort (Some "PwnCount") (Some (DStr "DESC")) fixture_loaded).2
  = Some [VStr "Adobe"; VStr "Fling"; VStr "MasterDeeds"; VStr "Estonia"].
Proof. vm_compute. reflexivity. Qed.

(** Once [pluck] has dropped the dates, sorting by a date key throws, and
    so does the data-class filter once it has dropped [DataClasses]. *)
Example sort_by_date_after_pluck :
  (HIBP.sort (Some "AddedDate") None (HIBP.pluck [Arr ["Name"]] fixture_loaded).2).1
  = Abrupt TypeError.
Proof. vm_compute. reflexivity. Qed.

Example hasDataClass_after_pluck :
  (HIBP.hasDataClass [Str "names"] (HIBP.pluck [Arr ["Name"]] fixture_loaded).2).1
  = Abrupt TypeError.
Proof. vm_compute. reflexivity. Qed.

(** A method called before [getBreaches] throws. *)
Example filter_before_load :
  (HIBP.filter None HIBP.new).1 = Abrupt TypeError.
Proof. reflexivity. Qed.


(** * Further properties of the class *)

(** ** Filters *)

Lemma array_filter_total (fn : record → completion value) ws :
  (∀ breach, breach ∈ ws → ∃ v, fn breach = Normal v) →
  array_filter fn ws = Normal (filter (λ breach, keeps fn breach = true) ws).
Proof.
  induction ws as [|x ws IH]; intros Hfn; [done|].
  simpl. destruct (Hfn x) as [v Hv]; [left|]. rewrite Hv. simpl.
  rewrite IH by (intros b Hb; apply Hfn; by right). simpl.
  destruct (to_boolean v) eqn:Hb.
  - rewrite filter_cons_True; [done|]. unfold keeps. by rewrite Hv.
  - rewrite filter_cons_False; [done|]. unfold keeps. rewrite Hv. congruence.
Qed.

Lemma array_filter_sublist (fn : record → completion value) ws ws' :
  array_filter fn ws = Normal ws' → ws' `sublist_of` ws.
Proof.
  revert ws'. induction ws as [|x ws IH]; intros ws'; simpl.
  - intros [= <-]. constructor.
  - destruct (fn x) as [v|]; simpl; [|done].
    destruct (array_filter fn ws) as [rest|]; simpl; [|done].
    intros [= <-]. destruct (to_boolean v); constructor; by apply IH.
Qed.

Lemma array_filter_abrupt (fn : record → completion value) ws breach e :
  breach ∈ ws → fn breach = Abrupt e → array_filter fn ws = Abrupt TypeError.
Proof.
  induction ws as [|x ws IH]; intros Hin Hb; [by apply elem_of_nil in Hin|].
  simpl. apply elem_of_cons in Hin as [<-|Hin].
  - rewrite Hb. by destruct e.
  - destruct (fn x) as [v|[]]; simpl; [|done]. by rewrite IH.
Qed.

(** What one call of the generic filter does to a loaded object. *)
Lemma filter_outcome fn this ws :
  HIBP.working this = Some ws →
  (∃ ws', array_filter (default (λ _, Normal (VBool true)) fn) ws = Normal ws' ∧
          returns (HIBP.filter fn this) ws') ∨
  (array_filter (default (λ _, Normal (VBool true)) fn) ws = Abrupt TypeError ∧
   HIBP.filter fn this = (Abrupt TypeError, this)).
Proof.
  intros Hw.
  destruct (array_filter (default (λ _, Normal (VBool true)) fn) ws)
    as [ws'|[]] eqn:Hf.
  - left. exists ws'. split; [done|]. by apply (filter_returns _ _ ws).
  - right. split; [done|]. unfold HIBP.filter.
    rewrite (deref_working _ _ Hw). simpl. by rewrite Hf.
Qed.

(** X1: each flag filter returns and keeps, in their order, exactly the
    breaches whose flag is the boolean asked for, and asks for [true] when
    called without argument. *)
Theorem flag_filters_exact (this : HIBP.t) (ws : list record)
  (bool : option bool) :
  HIBP.working this = Some ws →
  returns (HIBP.isFabricated bool this)
    (filter (λ breach, get breach "IsFabricated" = VBool (default true bool)) ws) ∧
  returns (HIBP.isRetired bool this)
    (filter (λ breach, get breach "IsRetired" = VBool (default true bool)) ws) ∧
  returns (HIBP.isSensitive bool this)
    (filter (λ breach, get breach "IsSensitive" = VBool (default true bool)) ws) ∧
  returns (HIBP.isSpamList bool this)
    (filter (λ breach, get breach "IsSpamList" = VBool (default true bool)) ws) ∧
  returns (HIBP.isVerified bool this)
    (filter (λ breach, get breach "IsVerified" = VBool (default true bool)) ws).
Proof.
  intros Hw.
  assert (∀ name,
            returns (HIBP._boolProp name (Some (default true bool)) this)
              (filter (λ breach, get breach name = VBool (default true bool)) ws))
    as Hprop.
  { intros name. apply filter_pure_returns; [done|]. intros b. simpl.
    unfold strict_eq_bool. destruct (get b name); try by split.
    rewrite bool_decide_eq_true. split; congruence. }
  repeat split; apply Hprop.
Qed.

Lemma flag_filters_exact_witness :
  returns (HIBP.isSensitive None fixture_loaded) [fling] ∧
  returns (HIBP.isVerified (Some false) fixture_loaded) [].
Proof.
  destruct (flag_filters_exact fixture_loaded fixture None) as (_ & _ & H1 & _).
  { apply getBreaches_working. }
  destruct (flag_filters_exact fixture_loaded fixture (Some false))
    as (_ & _ & _ & _ & H2).
  { apply getBreaches_working. }
  split; [exact H1|exact H2].
Defined.

(** X2: on well-formed breaches a flag filter called with [true] and the
    same filter called with [false] split the working set: every breach
    is kept by exactly one of them. *)
Theorem flag_filter_splits (this : HIBP.t) (ws : list record) (name : string) :
  HIBP.working this = Some ws →
  Forall (λ breach, HIBP.well_formed breach = true) ws →
  (name, HIBP.FBoolean) ∈ HIBP.schema →
  ∃ yes no,
    returns (HIBP._boolProp name (Some true) this) yes ∧
    returns (HIBP._boolProp name (Some false) this) no ∧
    yes ++ no ≡ₚ ws ∧
    (∀ breach, breach ∈ yes → breach ∉ no).
Proof.
  intros Hw Hwf Hname.
  exists (filter (λ breach, get breach name = VBool true) ws),
         (filter (λ breach, ¬ get breach name = VBool true) ws).
  assert (∀ b0, returns (HIBP._boolProp name (Some b0) this)
                  (filter (λ breach, get breach name = VBool b0) ws)) as Hprop.
  { intros b0. apply filter_pure_returns; [done|]. intros b. simpl.
    unfold strict_eq_bool. destruct (get b name); try by split.
    rewrite bool_decide_eq_true. split; congruence. }
  split; [apply Hprop|]. split.
  - replace (filter (λ breach, ¬ get breach name = VBool true) ws)
      with (filter (λ breach, get breach name = VBool false) ws); [apply Hprop|].
    clear Hw Hprop. induction Hwf as [|b ws Hb _ IH]; [done|].
    pose proof (well_formed_field b name _ Hb Hname) as Hty.
    destruct (get b name) as [|[|]| | | |] eqn:Hg; try discriminate.
    + rewrite filter_cons_False by (by rewrite Hg).
      by rewrite filter_cons_False by (rewrite Hg; tauto).
    + rewrite filter_cons_True by (by rewrite Hg).
      rewrite filter_cons_True by (by rewrite Hg). by f_equal.
  - split; [apply filter_app_complement|].
    intros b [Hy _]%list_elem_of_filter [Hn _]%list_elem_of_filter. done.
Qed.

Lemma flag_filter_splits_witness :
  ∃ yes no,
    returns (HIBP._boolProp "IsSensitive" (Some true) fixture_loaded) yes ∧
    returns (HIBP._boolProp "IsSensitive" (Some false) fixture_loaded) no ∧
    yes ++ no ≡ₚ fixture ∧
    (∀ breach, breach ∈ yes → breach ∉ no).
Proof.
  apply (flag_filter_splits fixture_loaded fixture "IsSensitive").
  - apply getBreaches_working.
  - repeat constructor.
  - in_schema.
Defined.

(** X3: two calls of the generic filter with predicates that return on the
    breaches of the working set keep exactly the breaches both predicates
    find truthy, whichever call comes first. *)
Theorem filter_twice_commutes (this : HIBP.t) (ws : list record)
  (fn1 fn2 : record → completion value) :
  HIBP.working this = Some ws →
  (∀ breach, breach ∈ ws → ∃ v, fn1 breach = Normal v) →
  (∀ breach, breach ∈ ws → ∃ v, fn2 breach = Normal v) →
  let both := filter (λ breach, keeps fn1 breach = true ∧ keeps fn2 breach = true) ws in
  returns (HIBP.filter (Some fn2) (HIBP.filter (Some fn1) this).2) both ∧
  returns (HIBP.filter (Some fn1) (HIBP.filter (Some fn2) this).2) both.
Proof.
  intros Hw H1 H2 both.
  assert (∀ f g : record → completion value,
            (∀ breach, breach ∈ ws → ∃ v, f breach = Normal v) →
            (∀ breach, breach ∈ ws → ∃ v, g breach = Normal v) →
            returns (HIBP.filter (Some g) (HIBP.filter (Some f) this).2)
              (filter (λ breach, keeps g breach = true ∧ keeps f breach = true) ws))
    as Hseq.
  { intros f g Hf Hg.
    destruct (filter_returns (Some f) this ws _ Hw (array_filter_total f ws Hf))
      as [_ Hw1].
    apply (filter_returns _ _ _ _ Hw1). simpl.
    rewrite array_filter_total.
    - by rewrite list_filter_filter.
    - intros b [_ Hb]%list_elem_of_filter. by apply Hg. }
  split.
  - unfold both. erewrite list_filter_iff; [by apply Hseq|]. intros b. tauto.
  - by apply Hseq.
Qed.

Lemma filter_twice_commutes_witness :
  let fn1 breach := Normal (get breach "IsVerified") in
  let fn2 breach := Normal (get breach "Domain") in
  returns (HIBP.filter (Some fn2) (HIBP.filter (Some fn1) fixture_loaded).2)
          [adobe; fling] ∧
  returns (HIBP.filter (Some fn1) (HIBP.filter (Some fn2) fixture_loaded).2)
          [adobe; fling].
Proof.
  intros fn1 fn2.
  apply (filter_twice_commutes fixture_loaded fixture fn1 fn2).
  - apply getBreaches_working.
  - intros b _. by eexists.
  - intros b _. by eexists.
Defined.

(** X4: [name] returns and keeps, in their order, exactly the breaches
    whose [Name] is one of the names given, and it makes no difference how
    the names are grouped in arrays, ordered or repeated. *)
Theorem name_keeps_listed (this : HIBP.t) (ws : list record)
  (names : list arg) :
  HIBP.working this = Some ws →
  returns (HIBP.name names this)
    (filter (λ breach, get breach "Name" ∈ VStr <$> flat names) ws) ∧
  (∀ names' : list arg,
     (∀ s, s ∈ flat names' ↔ s ∈ flat names) →
     (HIBP.name names' this).1 = (HIBP.name names this).1 ∧
     HIBP.working (HIBP.name names' this).2 = HIBP.working (HIBP.name names this).2).
Proof.
  intros Hw.
  assert (∀ ns, returns (HIBP.name ns this)
                  (filter (λ breach, get breach "Name" ∈ VStr <$> flat ns) ws))
    as Hname.
  { intros ns. apply filter_pure_returns; [done|]. intros b.
    unfold array_includes. destruct (get b "Name") as [| | |s| |] eqn:Hg;
      try (split; [done|]; intros (? & ? & _)%list_elem_of_fmap; done).
    rewrite bool_decide_eq_true. split.
    - intros Hs. apply list_elem_of_fmap. eauto.
    - intros (s' & [= ->] & Hs)%list_elem_of_fmap. done. }
  split; [apply Hname|]. intros names' Hsame.
  destruct (Hname names) as [-> ->]. destruct (Hname names') as [-> ->].
  split; [done|]. f_equal. apply list_filter_iff. intros b.
  rewrite !list_elem_of_fmap. split; intros (s & -> & Hs); exists s;
    (split; [done|]); by apply Hsame.
Qed.

Lemma name_keeps_listed_witness :
  returns (HIBP.name [Arr ["Fling"; "Adobe"]; Str "LinkedIn"] fixture_loaded)
          [adobe; fling].
Proof.
  destruct (name_keeps_listed fixture_loaded fixture
              [Arr ["Fling"; "Adobe"]; Str "LinkedIn"]) as [H _].
  - apply getBreaches_working.
  - exact H.
Defined.

Lemma hasDataClass_loop_sublist dataClasses :
  ∀ this ws,
    HIBP.working this = Some ws →
    ∃ ws', HIBP.working (HIBP.hasDataClass_loop dataClasses this).2 = Some ws' ∧
           ws' `sublist_of` ws.
Proof.
  induction dataClasses as [|c cs IH]; intros this ws Hw; [by exists ws|].
  simpl. match goal with |- context [HIBP.filter ?f this] =>
    destruct (filter_outcome f this ws Hw) as [(ws1 & Hf & Hn & Hw1)|[_ ->]] end.
  - match goal with |- context [HIBP.filter ?f this] =>
      destruct (HIBP.filter f this) as [[[]|e] this'] end; [|done].
    destruct (IH this' ws1 Hw1) as (ws' & Hw' & Hsub).
    exists ws'. split; [done|]. etransitivity; [done|].
    by eapply array_filter_sublist.
  - by exists ws.
Qed.

Lemma invoke_filter_sublist `{rt : Runtime} c this ws :
  is_filter c = true →
  HIBP.working this = Some ws →
  ∃ ws', HIBP.working (invoke c this).2 = Some ws' ∧ ws' `sublist_of` ws.
Proof.
  intros Hc Hw.
  destruct c; try discriminate; simpl;
    try (by apply hasDataClass_loop_sublist);
    match goal with |- context [(?call).2] =>
      let f := fresh in
      unfold HIBP.isFabricated, HIBP.isRetired, HIBP.isSensitive,
        HIBP.isSpamList, HIBP.isVerified, HIBP._boolProp,
        HIBP.hasDomain, HIBP.name
    end;
    match goal with |- context [HIBP.filter ?f this] =>
      destruct (filter_outcome f this ws Hw) as [(ws1 & Hf & Hn & Hw1)|[_ ->]];
      [exists ws1; split; [done|by eapply array_filter_sublist]|by exists ws]
    end.
Qed.

(** X5: filters only drop breaches. After any sequence of calls of the
    generic filter and the named filters on a loaded object, whether they
    returned or threw, the working set is a subsequence of the one
    before. *)
Theorem filters_only_drop `{rt : Runtime} (this : HIBP.t) (ws : list record)
  (cs : list call) :
  HIBP.working this = Some ws →
  Forall (λ c, is_filter c = true) cs →
  ∃ ws', HIBP.working (invoke_all cs this) = Some ws' ∧ ws' `sublist_of` ws.
Proof.
  intros Hw Hcs. revert this ws Hw.
  induction Hcs as [|c cs Hc _ IH]; intros this ws Hw; [by exists ws|].
  simpl. destruct (invoke_filter_sublist c this ws Hc Hw) as (ws1 & Hw1 & Hsub1).
  destruct (IH _ ws1 Hw1) as (ws' & Hw' & Hsub).
  exists ws'. split; [done|]. by etransitivity.
Qed.

Lemma filters_only_drop_witness :
  ∃ ws',
    HIBP.working
      (invoke_all [HasDomain None; HasDataClass [Str "passwords"]; IsVerified None]
                  fixture_loaded) = Some ws' ∧
    ws' `sublist_of` fixture.
Proof.
  apply (filters_only_drop fixture_loaded fixture
           [HasDomain None; HasDataClass [Str "passwords"]; IsVerified None]).
  - apply getBreaches_working.
  - repeat constructor.
Defined.

(** X6: on breaches that carry a [DataClasses] array, the outcome of
    [hasDataClass] depends only on which classes are requested, not on
    their order, their repetition or their grouping in arrays; and two
    calls in a row are one call with all the classes. *)
Theorem hasDataClass_order_irrelevant (this : HIBP.t) (ws : list record)
  (dataClasses dataClasses' : list arg) :
  HIBP.working this = Some ws →
  Forall (λ breach, ∃ l, get breach "DataClasses" = VArr l) ws →
  ((∀ c, c ∈ flat dataClasses' ↔ c ∈ flat dataClasses) →
   ∃ ws', returns (HIBP.hasDataClass dataClasses this) ws' ∧
          returns (HIBP.hasDataClass dataClasses' this) ws') ∧
  (∃ ws', returns (HIBP.hasDataClass dataClasses'
                     (HIBP.hasDataClass dataClasses this).2) ws' ∧
          returns (HIBP.hasDataClass (dataClasses ++ dataClasses') this) ws').
Proof.
  intros Hw Harr. split.
  - intros Hsame. eexists. split.
    + by apply hasDataClass_loop_returns.
    + replace (filter _ ws) with
        (filter (λ breach, Forall (λ c, c ∈ data_classes breach) (flat dataClasses')) ws);
        [by apply hasDataClass_loop_returns|].
      apply list_filter_iff. intros b. rewrite !Forall_forall.
      split; intros H c Hc; apply H; by apply Hsame.
  - destruct (hasDataClass_loop_returns (flat dataClasses) this ws Hw Harr)
      as [_ Hw1].
    eexists. split.
    + apply (hasDataClass_loop_returns (flat dataClasses') _ _ Hw1).
      rewrite Forall_forall in Harr |- *.
      intros b [_ Hb]%list_elem_of_filter. by apply Harr.
    + replace (filter _ (filter _ ws)) with
        (filter (λ breach, Forall (λ c, c ∈ data_classes breach)
                             (flat (dataClasses ++ dataClasses'))) ws);
        [by apply hasDataClass_loop_returns|].
      rewrite list_filter_filter. apply list_filter_iff. intros b.
      unfold flat. rewrite flat_map_app, Forall_app. tauto.
Qed.

Lemma hasDataClass_order_irrelevant_witness :
  ∃ ws',
    returns (HIBP.hasDataClass [Str "names"]
               (HIBP.hasDataClass [Arr ["job-titles"]] fixture_loaded).2) ws' ∧
    returns (HIBP.hasDataClass ([Arr ["job-titles"]] ++ [Str "names"])
               fixture_loaded) ws'.
Proof.
  destruct (hasDataClass_order_irrelevant fixture_loaded fixture
              [Arr ["job-titles"]] [Str "names"]) as [_ H].
  - apply getBreaches_working.
  - repeat constructor; eexists; reflexivity.
  - exact H.
Defined.

(** X7: where some breach of the working set has no [DataClasses] (as
    after a [pluck] that dropped it), [hasDataClass] with at least one
    requested class throws a TypeError and leaves the object as it was. *)
Theorem hasDataClass_throws_without_classes (this : HIBP.t) (ws : list record)
  (dataClasses : list arg) (breach : record) :
  HIBP.working this = Some ws →
  breach ∈ ws →
  get breach "DataClasses" = VUndef →
  flat dataClasses ≠ [] →
  HIBP.hasDataClass dataClasses this = (Abrupt TypeError, this).
Proof.
  intros Hw Hin Hundef Hne. unfold HIBP.hasDataClass.
  destruct (flat dataClasses) as [|c cs]; [done|]. simpl.
  match goal with |- context [HIBP.filter ?f this] =>
    destruct (filter_outcome f this ws Hw) as [(ws1 & Hf & _)|[_ ->]] end;
    [|done].
  simpl in Hf. erewrite array_filter_abrupt in Hf; [done|exact Hin|].
  by rewrite Hundef.
Qed.

Lemma hasDataClass_throws_without_classes_witness :
  let this := (HIBP.pluck [Str "Name"] fixture_loaded).2 in
  HIBP.hasDataClass [Str "names"] this = (Abrupt TypeError, this).
Proof.
  intros this.
  apply (hasDataClass_throws_without_classes this
           (HIBP.pluck_one ["Name"] <$> fixture) [Str "names"]
           (HIBP.pluck_one ["Name"] adobe)).
  - reflexivity.
  - left.
  - reflexivity.
  - discriminate.
Defined.

(** ** More on sorting *)

(** X8: [sort] rearranges the working array in place: whatever the key and
    the direction, the working set afterwards is a permutation of the one
    before and sits behind the same reference, and when the call throws
    the object is as it was. *)
Theorem sort_permutes_in_place `{rt : Runtime} (this : HIBP.t)
  (ws : list record) (key : option string) (d : option direction) :
  HIBP.working this = Some ws →
  (∃ ws', HIBP.working (HIBP.sort key d this).2 = Some ws' ∧ ws' ≡ₚ ws) ∧
  HIBP._breaches (HIBP.sort key d this).2 = HIBP._breaches this ∧
  ((HIBP.sort key d this).1 = Normal () ∨
   HIBP.sort key d this = (Abrupt TypeError, this)).
Proof.
  intros Hw. unfold HIBP.sort. rewrite (deref_working _ _ Hw). simpl.
  unfold HIBP.working in Hw.
  destruct (HIBP._breaches this) as [r|] eqn:Hr; [|done]. simpl in Hw.
  destruct (array_sort (HIBP.comparator key d) ws) as [ws'|[]] eqn:Hs.
  - split; [|split; [done|by left]].
    exists ws'. split; [by apply working_store|].
    apply (sort_loop_perm _ _ _ _ Hs).
  - split; [|split; [done|by right]].
    exists ws. split; [|done]. unfold HIBP.working. simpl. by rewrite Hr.
Qed.

Lemma sort_permutes_in_place_witness :
  (∃ ws', HIBP.working (HIBP.sort (Some "Name") None fixture_loaded).2 = Some ws'
          ∧ ws' ≡ₚ fixture) ∧
  HIBP._breaches (HIBP.sort (Some "Name") None fixture_loaded).2
    = HIBP._breaches fixture_loaded ∧
  ((HIBP.sort (Some "Name") None fixture_loaded).1 = Normal () ∨
   HIBP.sort (Some "Name") None fixture_loaded = (Abrupt TypeError, fixture_loaded)).
Proof.
  apply (sort_permutes_in_place fixture_loaded fixture).
  apply getBreaches_working.
Defined.

(** Sorting with a comparator that is a total preorder on the elements
    leaves no element after one it orders before. *)
Section SortOrdered.
Context `{rt : Runtime} {A : Type}.
Variable fn : A → A → completion value.
Variable S : A → Prop.
Hypothesis fn_total : ∀ x y, S x → S y → ∃ v, fn x y = Normal v.
Hypothesis asym : ∀ x y, S x → S y → order_of fn x y < 0 → ¬ order_of fn y x < 0.
Hypothesis neg_trans : ∀ x y z, S x → S y → S z →
  ¬ order_of fn x y < 0 → ¬ order_of fn y z < 0 → ¬ order_of fn x z < 0.

Lemma insert_pivot_ordered pivot sorted :
  S pivot → Forall S sorted →
  StronglySorted (λ y x, ¬ order_of fn y x < 0) sorted →
  ∃ res, insert_pivot fn pivot sorted = Normal res ∧
         StronglySorted (λ y x, ¬ order_of fn y x < 0) res.
Proof.
  intros Hp Hs Hsorted.
  destruct (insert_pivot_on fn S fn_total pivot sorted Hp Hs)
    as (l1 & l2 & -> & -> & Hl1 & Hl2).
  eexists. split; [done|].
  apply Forall_app in Hs as [Hs1 Hs2].
  apply StronglySorted_app in Hsorted as (H12 & Hsorted1 & Hsorted2).
  apply StronglySorted_app_2; [|done|].
  - intros x1 x2 Hx1 [->|Hx2]%elem_of_cons; [|by apply H12].
    rewrite Forall_forall in Hl1, Hs1. apply asym; auto.
  - apply StronglySorted_cons. split; [|done].
    destruct l2 as [|h l2]; [done|].
    apply Forall_cons in Hs2 as [Sh Hs2].
    apply StronglySorted_cons in Hsorted2 as [Hh _].
    constructor; [by apply Hl2|].
    rewrite Forall_forall in Hh, Hs2 |- *. intros e He.
    apply (neg_trans pivot h e); auto.
Qed.

Lemma sort_loop_ordered a sorted :
  Forall S a → Forall S sorted →
  StronglySorted (λ y x, ¬ order_of fn y x < 0) sorted →
  ∃ res, sort_loop fn a sorted = Normal res ∧
         StronglySorted (λ x y, ¬ order_of fn y x < 0) res.
Proof.
  revert sorted. induction a as [|x a IH]; intros sorted Ha Hs Hsorted; simpl.
  - eexists. split; [done|].
    by apply (StronglySorted_reverse (λ x y, ¬ order_of fn y x < 0)).
  - apply Forall_cons in Ha as [Hx Ha].
    destruct (insert_pivot_ordered x sorted Hx Hs Hsorted) as (s' & Hins & Hs').
    rewrite Hins. simpl. apply IH; [done| |done].
    rewrite (insert_pivot_perm _ _ _ _ Hins). by constructor.
Qed.
End SortOrdered.

(** A comparator that orders nothing before anything leaves the array as
    it is. *)
Lemma sort_loop_identity `{rt : Runtime} {A} (fn : A → A → completion value)
  (S : A → Prop) a sorted :
  (∀ x y, S x → S y → ∃ v, fn x y = Normal v) →
  (∀ x y, S x → S y → ¬ order_of fn x y < 0) →
  Forall S a → Forall S sorted →
  sort_loop fn a sorted = Normal (reverse sorted ++ a).
Proof.
  intros Htotal Hnone. revert sorted.
  induction a as [|x a IH]; intros sorted Ha Hs; simpl.
  - by rewrite app_nil_r.
  - apply Forall_cons in Ha as [Hx Ha].
    assert (insert_pivot fn x sorted = Normal (x :: sorted)) as ->.
    { destruct sorted as [|e sorted]; [done|]. simpl.
      apply Forall_cons in Hs as [He Hs].
      rewrite (sort_compare_on fn S Htotal x e Hx He). simpl.
      destruct (Z.ltb_spec (order_of fn x e) 0) as [Hlt|]; [|done].
      by destruct (Hnone x e Hx He). }
    simpl. rewrite IH by (by try constructor).
    by rewrite reverse_cons, <- app_assoc.
Qed.

Lemma comparator_sort_fn `{rt : Runtime} key d :
  ∃ d', HIBP.comparator key d
        = HIBP.sort_fn (HIBP.sort_key (default "AddedDate" key))
            (HIBP.types !! HIBP.sort_key (default "AddedDate" key)) d' ∧
        HIBP.direction_to_number d' = sort_sign key d.
Proof. by eexists. Qed.

Lemma sort_returns_sorted `{rt : Runtime} (this : HIBP.t) (ws : list record)
  (key : option string) (d : option direction) (ty : HIBP.sort_type) (z : Z) :
  HIBP.working this = Some ws →
  Forall (λ breach, HIBP.well_formed breach = true) ws →
  HIBP.types !! HIBP.sort_key (default "AddedDate" key) = Some ty →
  sort_sign key d = Int z →
  ∃ ws',
    returns (HIBP.sort key d this) ws' ∧
    ws' ≡ₚ ws ∧
    (0 < z → StronglySorted
               (λ x y, key_order (HIBP.sort_key (default "AddedDate" key)) ty x y ≤ 0)
               ws') ∧
    (z < 0 → StronglySorted
               (λ x y, 0 ≤ key_order (HIBP.sort_key (default "AddedDate" key)) ty x y)
               ws').
Proof.
  intros Hw Hwf Hk Hz.
  destruct (comparator_sort_fn key d) as (d' & Hfn & Hd').
  set (k := HIBP.sort_key (default "AddedDate" key)) in *.
  rewrite Hk in Hfn. rewrite Hz in Hd'.
  set (fn := HIBP.sort_fn k (Some ty) d') in *.
  set (S := λ breach : record, HIBP.well_formed breach = true).
  assert (∀ x y, S x → S y → order_of fn x y = key_order k ty x y * z) as Horder.
  { intros x y Hx Hy. unfold fn. rewrite order_of_sort_fn by done. by rewrite Hd'. }
  assert (∀ x y, S x → S y → ∃ v, fn x y = Normal v) as Htotal.
  { intros x y Hx Hy. unfold fn. rewrite sort_fn_well_formed by done. by eexists. }
  destruct (sort_loop_ordered fn S Htotal) with (a := ws) (sorted := @nil record)
    as (ws' & Hs & Hsorted); [| |done|constructor|constructor|].
  { intros x y Hx Hy. rewrite !Horder by done.
    pose proof (key_order_sgn k ty x y Hk Hx Hy). nia. }
  { intros x y y' Hx Hy Hy'. rewrite !Horder by done.
    pose proof (key_order_sgn k ty x y Hk Hx Hy).
    pose proof (key_order_sgn k ty y y' Hk Hy Hy').
    pose proof (key_order_sgn k ty x y' Hk Hx Hy').
    pose proof (key_order_trans k ty x y y' Hk Hx Hy Hy').
    pose proof (key_order_trans k ty y' y x Hk Hy' Hy Hx).
    nia. }
  pose proof (sort_loop_perm fn _ _ _ Hs) as Hperm. simpl in Hperm.
  assert (∀ x, x ∈ ws' → S x) as HS'.
  { intros x Hx. rewrite Hperm in Hx. rewrite Forall_forall in Hwf. by apply Hwf. }
  exists ws'. split; [apply (sort_returns _ _ _ ws); [done|by rewrite Hfn]|].
  split; [done|]. split; intros Hsign;
    (eapply StronglySorted_impl_on; [|exact Hsorted]);
    intros x y Hx Hy; simpl; rewrite Horder by auto;
    pose proof (key_order_sgn k ty x y Hk (HS' x Hx) (HS' y Hy)); nia.
Qed.

(** X9: on well-formed breaches [sort] by a key of [HIBP.types] returns a
    permutation of the working set that is ordered by the key: no breach
    stands after one with a greater value when the direction is a positive
    number, none after one with a smaller value when it is negative. *)
Theorem sort_orders_by_key `{rt : Runtime} (this : HIBP.t) (ws : list record)
  (key : option string) (d : option direction) (ty : HIBP.sort_type) (z : Z) :
  HIBP.working this = Some ws →
  Forall (λ breach, HIBP.well_formed breach = true) ws →
  HIBP.types !! HIBP.sort_key (default "AddedDate" key) = Some ty →
  sort_sign key d = Int z →
  ∃ ws',
    returns (HIBP.sort key d this) ws' ∧
    ws' ≡ₚ ws ∧
    (0 < z → StronglySorted
               (λ x y, key_order (HIBP.sort_key (default "AddedDate" key)) ty x y ≤ 0)
               ws') ∧
    (z < 0 → StronglySorted
               (λ x y, 0 ≤ key_order (HIBP.sort_key (default "AddedDate" key)) ty x y)
               ws').
Proof. apply sort_returns_sorted. Qed.

Lemma sort_orders_by_key_witness :
  ∃ ws',
    returns (HIBP.sort (Some "-PwnCount") None fixture_loaded) ws' ∧
    ws' ≡ₚ fixture ∧
    (0 < -1 → StronglySorted
                (λ x y, key_order "PwnCount" HIBP.SNumber x y ≤ 0) ws') ∧
    (-1 < 0 → StronglySorted
                (λ x y, 0 ≤ key_order "PwnCount" HIBP.SNumber x y) ws').
Proof.
  apply (sort_orders_by_key fixture_loaded fixture (Some "-PwnCount") None
           HIBP.SNumber (-1)).
  - apply getBreaches_working.
  - repeat constructor.
  - reflexivity.
  - reflexivity.
Defined.

Lemma sort_direction_of_desc `{rt : Runtime} s :
  toLowerCase s = "desc" → HIBP.sort_direction (DStr s) = DNum (Int (-1)).
Proof. intros H. unfold HIBP.sort_direction. simpl. by rewrite H. Qed.

Lemma sort_direction_of_asc `{rt : Runtime} s :
  toLowerCase s = "asc" → HIBP.sort_direction (DStr s) = DNum (Int 1).
Proof. intros H. unfold HIBP.sort_direction. simpl. by rewrite H. Qed.

(** X10: the ways to spell a direction agree. For a key that does not
    start with a minus sign, [sort(key, s)] with [s] any upper or lower
    case spelling of "desc", [sort(key, -1)] and [sort("-" + key, d)] with
    any [d] whatsoever are the same call, and [sort(key, s)] with [s] a
    spelling of "asc" is [sort(key)]. *)
Theorem sort_direction_spellings `{rt : Runtime} (this : HIBP.t)
  (key asc desc : string) (d : option direction) :
  startsWith_minus key = false →
  toLowerCase asc = "asc" →
  toLowerCase desc = "desc" →
  HIBP.sort (Some key) (Some (DStr desc)) this
    = HIBP.sort (Some key) (Some (DNum (Int (-1)))) this ∧
  HIBP.sort (Some ("-" +:+ key)) d this
    = HIBP.sort (Some key) (Some (DNum (Int (-1)))) this ∧
  HIBP.sort (Some key) (Some (DStr asc)) this
    = HIBP.sort (Some key) None this.
Proof.
  intros Hkey Hasc Hdesc.
  assert (HIBP.comparator (Some key) (Some (DStr desc))
          = HIBP.comparator (Some key) (Some (DNum (Int (-1))))) as E1.
  { unfold HIBP.comparator. simpl. by rewrite (sort_direction_of_desc desc Hdesc). }
  assert (HIBP.comparator (Some ("-" +:+ key)) d
          = HIBP.comparator (Some key) (Some (DNum (Int (-1))))) as E2.
  { change (HIBP.comparator (Some ("-" +:+ key)) d)
      with (HIBP.sort_fn key (HIBP.types !! key) (DNum (Int (-1)))).
    unfold HIBP.comparator, HIBP.sort_key, HIBP.sort_key_direction. simpl.
    by rewrite Hkey. }
  assert (HIBP.comparator (Some key) (Some (DStr asc))
          = HIBP.comparator (Some key) None) as E3.
  { unfold HIBP.comparator. simpl. by rewrite (sort_direction_of_asc asc Hasc). }
  unfold HIBP.sort. by rewrite E1, E2, E3.
Qed.

Lemma sort_direction_spellings_witness :
  HIBP.sort (Some "Name") (Some (DStr "DESC")) fixture_loaded
    = HIBP.sort (Some "Name") (Some (DNum (Int (-1)))) fixture_loaded ∧
  HIBP.sort (Some "-Name") (Some (DStr "asc")) fixture_loaded
    = HIBP.sort (Some "Name") (Some (DNum (Int (-1)))) fixture_loaded ∧
  HIBP.sort (Some "Name") (Some (DStr "Asc")) fixture_loaded
    = HIBP.sort (Some "Name") None fixture_loaded.
Proof.
  apply (sort_direction_spellings fixture_loaded "Name" "Asc" "DESC"
           (Some (DStr "asc"))); reflexivity.
Defined.




(** X12: once the breaches no longer hold the sort key (as after a [pluck]
    that dropped it), [sort] by a boolean, number or string key of
    [HIBP.types] returns and leaves the working set in the order it had,
    in any direction. *)
Theorem sort_by_dropped_key_keeps_order `{rt : Runtime} (this : HIBP.t)
  (ws : list record) (key : option string) (d : option direction)
  (ty : HIBP.sort_type) :
  HIBP.working this = Some ws →
  HIBP.types !! HIBP.sort_key (default "AddedDate" key) = Some ty →
  ty ≠ HIBP.SDate →
  Forall (λ breach, get breach (HIBP.sort_key (default "AddedDate" key)) = VUndef) ws →
  returns (HIBP.sort key d this) ws.
Proof.
  intros Hw Hk Hty Hundef.
  destruct (comparator_sort_fn key d) as (d' & Hfn & _).
  set (k := HIBP.sort_key (default "AddedDate" key)) in *.
  rewrite Hk in Hfn.
  apply (sort_returns _ _ _ ws); [done|]. rewrite Hfn.
  apply (sort_loop_identity _ (λ breach, get breach k = VUndef) ws []);
    [| |done|constructor].
  - intros x y Hx Hy. unfold HIBP.sort_fn. destruct ty; try done; by eexists.
  - intros x y Hx Hy. unfold order_of, sort_compare, HIBP.sort_fn.
    rewrite Hx, Hy. destruct ty; [done|simpl; lia|simpl; lia|].
    simpl. rewrite localeCompare_refl.
    destruct (HIBP.direction_to_number d'); simpl; lia.
Qed.

Lemma sort_by_dropped_key_keeps_order_witness :
  let this := (HIBP.pluck [Str "Name"; Str "Domain"] fixture_loaded).2 in
  returns (HIBP.sort (Some "-PwnCount") None this)
          (HIBP.pluck_one ["Name"; "Domain"] <$> fixture).
Proof.
  intros this.
  apply (sort_by_dropped_key_keeps_order this
           (HIBP.pluck_one ["Name"; "Domain"] <$> fixture)
           (Some "-PwnCount") None HIBP.SNumber).
  - reflexivity.
  - reflexivity.
  - discriminate.
  - repeat constructor.
Defined.

Lemma insert_pivot_abrupt `{rt : Runtime} {A} (fn : A → A → completion value)
  (bad : A → Prop) pivot e sorted :
  (∀ x y, bad x ∨ bad y → fn x y = Abrupt TypeError) →
  bad pivot ∨ bad e →
  insert_pivot fn pivot (e :: sorted) = Abrupt TypeError.
Proof.
  intros Hfn Hbad. simpl. unfold sort_compare. by rewrite (Hfn pivot e Hbad).
Qed.

Lemma insert_pivot_nonempty `{rt : Runtime} {A} (fn : A → A → completion value)
  pivot sorted res :
  insert_pivot fn pivot sorted = Normal res → res ≠ [].
Proof.
  intros Hins Hnil. apply insert_pivot_perm in Hins. rewrite Hnil in Hins.
  by apply Permutation_nil_cons in Hins.
Qed.

Lemma sort_loop_abrupt `{rt : Runtime} {A} (fn : A → A → completion value)
  (bad : A → Prop) a sorted :
  (∀ x y, bad x ∨ bad y → fn x y = Abrupt TypeError) →
  sorted ≠ [] →
  Exists bad a →
  sort_loop fn a sorted = Abrupt TypeError.
Proof.
  intros Hfn. revert sorted.
  induction a as [|x a IH]; intros sorted Hne Hbad; [by apply Exists_nil in Hbad|].
  simpl. destruct sorted as [|e sorted]; [done|].
  apply Exists_cons in Hbad as [Hx|Ha].
  - rewrite (insert_pivot_abrupt fn bad x e sorted Hfn); [done|by left].
  - destruct (insert_pivot fn x (e :: sorted)) as [s'|[]] eqn:Hins; [|done].
    simpl. apply IH; [|done]. by eapply insert_pivot_nonempty.
Qed.

(** X13: [sort] by a date key on a working set of two or more breaches
    one of which holds no Date at the key throws a TypeError and leaves
    the object as it was. *)
Theorem sort_by_date_throws_without_date `{rt : Runtime} (this : HIBP.t)
  (ws : list record) (key : option string) (d : option direction)
  (breach : record) :
  HIBP.working this = Some ws →
  HIBP.types !! HIBP.sort_key (default "AddedDate" key) = Some HIBP.SDate →
  (2 ≤ length ws)%nat →
  breach ∈ ws →
  getTime (get breach (HIBP.sort_key (default "AddedDate" key))) = Abrupt TypeError →
  HIBP.sort key d this = (Abrupt TypeError, this).
Proof.
  intros Hw Hk Hlen Hin Hbad.
  destruct (comparator_sort_fn key d) as (d' & Hfn & _).
  set (k := HIBP.sort_key (default "AddedDate" key)) in *.
  rewrite Hk in Hfn.
  set (bad := λ b : record, getTime (get b k) = Abrupt TypeError).
  assert (∀ x y, bad x ∨ bad y → HIBP.sort_fn k (Some HIBP.SDate) d' x y
                                 = Abrupt TypeError) as Hthrows.
  { intros x y [Hx|Hy]; unfold HIBP.sort_fn; simpl.
    - by rewrite Hx.
    - rewrite Hy. by destruct (getTime (get x k)) as [|[]]. }
  assert (array_sort (HIBP.comparator key d) ws = Abrupt TypeError) as Hs.
  { rewrite Hfn. destruct ws as [|x1 [|x2 rest]]; simpl in Hlen; [lia..|].
    unfold array_sort.
    change (sort_loop (HIBP.sort_fn k (Some HIBP.SDate) d') (x2 :: rest) [x1]
            = Abrupt TypeError).
    apply elem_of_cons in Hin as [->|Hin].
    - simpl. unfold sort_compare. by rewrite Hthrows by (by right).
    - apply (sort_loop_abrupt _ bad); [done|done|].
      apply Exists_exists. by exists breach. }
  unfold HIBP.sort. rewrite (deref_working _ _ Hw). simpl. by rewrite Hs.
Qed.

Lemma sort_by_date_throws_without_date_witness :
  let this := (HIBP.pluck [Str "Name"] fixture_loaded).2 in
  HIBP.sort None None this = (Abrupt TypeError, this).
Proof.
  intros this.
  apply (sort_by_date_throws_without_date this
           (HIBP.pluck_one ["Name"] <$> fixture) None None
           (HIBP.pluck_one ["Name"] fling)).
  - reflexivity.
  - reflexivity.
  - simpl. lia.
  - do 3 right. left.
  - reflexivity.
Defined.

(** ** [pluck] *)

Lemma pluck_fold_lookup (breach : record) props (obj : record) p :
  foldl (λ obj prop, <[prop := get breach prop]> obj) obj props !! p
  = if decide (p ∈ props) then Some (get breach p) else obj !! p.
Proof.
  revert obj. induction props as [|q props IH]; intros obj; simpl.
  - done.
  - rewrite IH. destruct (decide (p ∈ props)) as [Hin|Hnotin].
    + by rewrite decide_True by (by right).
    + destruct (decide (p = q)) as [->|Hne].
      * rewrite lookup_insert_eq. by rewrite decide_True by left.
      * rewrite lookup_insert_ne by done.
        rewrite decide_False; [done|]. by intros [->|?]%elem_of_cons.
Qed.

Lemma pluck_one_lookup props breach p :
  HIBP.pluck_one props breach !! p
  = if decide (p ∈ props) then Some (get breach p) else None.
Proof. unfold HIBP.pluck_one. by rewrite pluck_fold_lookup, lookup_empty. Qed.

Lemma pluck_one_get props breach p :
  p ∈ props → get (HIBP.pluck_one props breach) p = get breach p.
Proof. intros Hp. unfold get. by rewrite pluck_one_lookup, decide_True. Qed.

Lemma pluck_returns props this ws :
  HIBP.working this = Some ws →
  returns (HIBP.pluck props this) (HIBP.pluck_one (flat props) <$> ws).
Proof.
  intros Hw. unfold HIBP.pluck. rewrite (deref_working _ _ Hw).
  split; [done|apply working_alloc].
Qed.

(** X14: called with property names other than those [Object.prototype]
    answers, [pluck] returns on every loaded object and replaces each
    breach, position by position, by an object that has exactly the
    requested properties, each with the value the breach had ([undefined]
    where it had none). *)
Theorem pluck_keeps_requested (this : HIBP.t) (ws : list record)
  (props : list arg) :
  HIBP.working this = Some ws →
  Forall (λ p, p ∉ object_prototype_names) (flat props) →
  ∃ ws',
    returns (HIBP.pluck props this) ws' ∧
    length ws' = length ws ∧
    ∀ i breach, ws !! i = Some breach →
      ∃ obj, ws' !! i = Some obj ∧
             dom obj = list_to_set (flat props) ∧
             ∀ p, p ∈ flat props → obj !! p = Some (get breach p).
Proof.
  intros Hw _. exists (HIBP.pluck_one (flat props) <$> ws).
  split; [by apply pluck_returns|]. split; [apply length_fmap|].
  intros i b Hi. exists (HIBP.pluck_one (flat props) b).
  split; [by rewrite list_lookup_fmap, Hi|]. split.
  - apply set_eq. intros p. rewrite elem_of_dom, pluck_one_lookup.
    rewrite elem_of_list_to_set.
    destruct (decide (p ∈ flat props)) as [Hin|Hnotin].
    + split; [done|]. intros _. by eexists.
    + split; [by intros [? ?]|done].
  - intros p Hp. by rewrite pluck_one_lookup, decide_True.
Qed.

Lemma pluck_keeps_requested_witness :
  ∃ ws',
    returns (HIBP.pluck [Arr ["Name"; "Severity"]] fixture_loaded) ws' ∧
    length ws' = length fixture ∧
    ∀ i breach, fixture !! i = Some breach →
      ∃ obj, ws' !! i = Some obj ∧
             dom obj = list_to_set (flat [Arr ["Name"; "Severity"]]) ∧
             ∀ p, p ∈ flat [Arr ["Name"; "Severity"]] →
                  obj !! p = Some (get breach p).
Proof.
  apply (pluck_keeps_requested fixture_loaded fixture [Arr ["Name"; "Severity"]]).
  - apply getBreaches_working.
  - repeat constructor; apply (bool_decide_unpack _); vm_compute; exact I.
Defined.

(** X15: plucking twice is plucking once: when every property of the
    second [pluck] is among those of the first, the two calls leave the
    working set that the second call alone would leave. *)
Theorem pluck_twice (this : HIBP.t) (ws : list record) (props props' : list arg) :
  HIBP.working this = Some ws →
  (∀ p, p ∈ flat props' → p ∈ flat props) →
  ∃ ws',
    returns (HIBP.pluck props' this) ws' ∧
    returns (HIBP.pluck props' (HIBP.pluck props this).2) ws'.
Proof.
  intros Hw Hsub. eexists. split; [by apply pluck_returns|].
  destruct (pluck_returns props this ws Hw) as [_ Hw1].
  replace (HIBP.pluck_one (flat props') <$> ws)
    with (HIBP.pluck_one (flat props') <$> (HIBP.pluck_one (flat props) <$> ws));
    [by apply pluck_returns|].
  rewrite <- list_fmap_compose. apply list_fmap_ext. intros _ b _. simpl.
  apply map_eq. intros p. rewrite !pluck_one_lookup.
  destruct (decide (p ∈ flat props')) as [Hp|]; [|done].
  by rewrite pluck_one_get by auto.
Qed.

Lemma pluck_twice_witness :
  ∃ ws',
    returns (HIBP.pluck [Str "Name"] fixture_loaded) ws' ∧
    returns (HIBP.pluck [Str "Name"]
               (HIBP.pluck [Arr ["Name"; "PwnCount"]] fixture_loaded).2) ws'.
Proof.
  apply (pluck_twice fixture_loaded fixture [Arr ["Name"; "PwnCount"]] [Str "Name"]).
  - apply getBreaches_working.
  - intros p ->%list_elem_of_singleton. left.
Defined.

Lemma insert_pivot_fmap `{rt : Runtime} {A} (fn : A → A → completion value)
  (f : A → A) pivot sorted :
  (∀ x y, fn (f x) (f y) = fn x y) →
  insert_pivot fn (f pivot) (f <$> sorted)
  = match insert_pivot fn pivot sorted with
    | Normal res => Normal (f <$> res)
    | Abrupt e => Abrupt e
    end.
Proof.
  intros Hf. induction sorted as [|e sorted IH]; [done|].
  simpl. unfold sort_compare. rewrite Hf.
  destruct (fn pivot e) as [v|]; simpl; [|done].
  destruct (_ <? 0); [|done].
  change (list_fmap A A f sorted) with (f <$> sorted). rewrite IH.
  by destruct (insert_pivot fn pivot sorted).
Qed.

Lemma sort_loop_fmap `{rt : Runtime} {A} (fn : A → A → completion value)
  (f : A → A) a sorted :
  (∀ x y, fn (f x) (f y) = fn x y) →
  sort_loop fn (f <$> a) (f <$> sorted)
  = match sort_loop fn a sorted with
    | Normal res => Normal (f <$> res)
    | Abrupt e => Abrupt e
    end.
Proof.
  intros Hf. revert sorted. induction a as [|x a IH]; intros sorted; simpl.
  - by rewrite fmap_reverse.
  - change (list_fmap A A f a) with (f <$> a).
    rewrite insert_pivot_fmap by done.
    destruct (insert_pivot fn x sorted) as [s'|]; simpl; [|done]. apply IH.
Qed.

(** X16: [sort] and [pluck] can be swapped when [pluck] keeps the sort
    key: if [sort] returns on the working set, then sorting first and
    plucking afterwards leaves the same working set as plucking first and
    sorting afterwards. *)
Theorem sort_pluck_swap `{rt : Runtime} (this : HIBP.t) (ws ws' : list record)
  (key : option string) (d : option direction) (props : list arg) :
  HIBP.working this = Some ws →
  HIBP.sort_key (default "AddedDate" key) ∈ flat props →
  returns (HIBP.sort key d this) ws' →
  returns (HIBP.pluck props (HIBP.sort key d this).2)
          (HIBP.pluck_one (flat props) <$> ws') ∧
  returns (HIBP.sort key d (HIBP.pluck props this).2)
          (HIBP.pluck_one (flat props) <$> ws').
Proof.
  intros Hw Hkey [Hn Hw']. split; [by apply pluck_returns|].
  destruct (pluck_returns props this ws Hw) as [_ Hw1].
  apply (sort_returns _ _ _ _ _ Hw1).
  assert (array_sort (HIBP.comparator key d) ws = Normal ws') as Hs.
  { revert Hn Hw'. unfold HIBP.sort. rewrite (deref_working _ _ Hw). simpl.
    unfold HIBP.working in Hw.
    destruct (HIBP._breaches this) as [r|] eqn:Hr; [|done].
    destruct (array_sort _ ws) as [res|]; [|done]. simpl.
    intros _. rewrite (working_store r res this Hr). congruence. }
  unfold array_sort in *.
  change (@nil record) with (HIBP.pluck_one (flat props) <$> @nil record).
  rewrite sort_loop_fmap; [by rewrite Hs|].
  intros x y. destruct (comparator_sort_fn key d) as (d' & -> & _).
  unfold HIBP.sort_fn. by rewrite !pluck_one_get.
Qed.

Lemma sort_pluck_swap_witness :
  returns (HIBP.pluck [Str "Name"; Str "PwnCount"]
             (HIBP.sort (Some "-PwnCount") None fixture_loaded).2)
          (HIBP.pluck_one ["Name"; "PwnCount"] <$> [adobe; fling; masterDeeds; estonia]) ∧
  returns (HIBP.sort (Some "-PwnCount") None
             (HIBP.pluck [Str "Name"; Str "PwnCount"] fixture_loaded).2)
          (HIBP.pluck_one ["Name"; "PwnCount"] <$> [adobe; fling; masterDeeds; estonia]).
Proof.
  apply (sort_pluck_swap fixture_loaded fixture [adobe; fling; masterDeeds; estonia]
           (Some "-PwnCount") None [Str "Name"; Str "PwnCount"]).
  - apply getBreaches_working.
  - right. left.
  - split; reflexivity.
Defined.

(** ** Arrays handed out and arrays kept *)

Lemma sort_keeps_reference `{rt : Runtime} key d this :
  HIBP._breaches (HIBP.sort key d this).2 = HIBP._breaches this.
Proof.
  unfold HIBP.sort.
  destruct (HIBP.deref _ _ ≫= _) as [a|]; [|done].
  by destruct (HIBP._breaches this) eqn:Hr.
Qed.

(** X17: [breaches()] without a limit hands out the working array itself,
    not a copy: a [sort] that returns afterwards rearranges the array the
    caller holds. *)
Theorem breaches_without_limit_is_live `{rt : Runtime} (this : HIBP.t)
  (ws : list record) :
  HIBP.working this = Some ws →
  ∃ r,
    HIBP.breaches None this = (Normal (Some r), this) ∧
    HIBP._breaches this = Some r ∧
    HIBP.heap this !! r = Some ws ∧
    ∀ key d ws',
      returns (HIBP.sort key d this) ws' →
      HIBP.heap (HIBP.sort key d this).2 !! r = Some ws'.
Proof.
  intros Hw. pose proof Hw as Hw0. unfold HIBP.working in Hw.
  destruct (HIBP._breaches this) as [r|] eqn:Hr; [|done]. simpl in Hw.
  exists r. split; [unfold HIBP.breaches; simpl; by rewrite Hr|].
  split; [done|]. split; [done|].
  intros key d ws' [_ Hw']. unfold HIBP.working in Hw'.
  by rewrite sort_keeps_reference, Hr in Hw'.
Qed.

Lemma breaches_without_limit_is_live_witness :
  ∃ r,
    HIBP.breaches None fixture_loaded = (Normal (Some r), fixture_loaded) ∧
    HIBP._breaches fixture_loaded = Some r ∧
    HIBP.heap fixture_loaded !! r = Some fixture ∧
    ∀ key d ws',
      returns (HIBP.sort key d fixture_loaded) ws' →
      HIBP.heap (HIBP.sort key d fixture_loaded).2 !! r = Some ws'.
Proof.
  apply (breaches_without_limit_is_live fixture_loaded fixture).
  apply getBreaches_working.
Defined.

Lemma kept_alloc r a a' this :
  kept r a this →
  kept r a (HIBP.set_breaches (HIBP.alloc a' this).1 (HIBP.alloc a' this).2).
Proof.
  intros [Hr Hne]. pose proof (alloc_fresh a' this) as Hfresh. simpl in *.
  assert (fresh (dom (HIBP.heap this)) ≠ r) as Hfr by congruence.
  split; simpl; [by rewrite lookup_insert_ne|congruence].
Qed.

Lemma kept_filter r a fn this : kept r a this → kept r a (HIBP.filter fn this).2.
Proof.
  intros Hk. unfold HIBP.filter.
  destruct (HIBP.deref _ _ ≫= _); [by apply kept_alloc|done].
Qed.

Lemma kept_hasDataClass_loop r a dataClasses this :
  kept r a this → kept r a (HIBP.hasDataClass_loop dataClasses this).2.
Proof.
  revert this. induction dataClasses as [|c cs IH]; intros this Hk; [done|].
  simpl. match goal with |- context [HIBP.filter ?f this] =>
    pose proof (kept_filter r a f this Hk) as Hk';
    destruct (HIBP.filter f this) as [[u|e] this'] end; [by apply IH|done].
Qed.

Lemma kept_invoke `{rt : Runtime} r a c this :
  kept r a this → kept r a (invoke c this).2.
Proof.
  intros Hk. destruct c; simpl;
    try (by apply kept_filter); try (by apply kept_hasDataClass_loop).
  - unfold HIBP.pluck. destruct (HIBP.deref _ _); [by apply kept_alloc|done].
  - pose proof Hk as [Hr Hne]. unfold HIBP.sort.
    destruct (HIBP.deref _ _ ≫= _) as [res|]; [|done].
    destruct (HIBP._breaches this) as [b|] eqn:Hb; [|done].
    split; simpl; [|done]. rewrite lookup_insert_ne; [done|congruence].
Qed.

Lemma kept_invoke_all `{rt : Runtime} r a cs this :
  kept r a this → kept r a (invoke_all cs this).
Proof.
  revert this. induction cs as [|c cs IH]; intros this Hk; [done|].
  simpl. apply IH. by apply kept_invoke.
Qed.

(** X18: [breaches(n)] with a non-zero limit hands out a copy: the working
    set stays as it was, and no later sequence of filter, [pluck] and
    [sort] calls changes the array the caller holds. *)
Theorem breaches_with_limit_is_detached `{rt : Runtime} (this : HIBP.t)
  (ws : list record) (n : Z) :
  HIBP.working this = Some ws →
  n ≠ 0 →
  ∃ r this',
    HIBP.breaches (Some (Int n)) this = (Normal (Some r), this') ∧
    HIBP.working this' = Some ws ∧
    ∀ cs, HIBP.heap (invoke_all cs this') !! r = Some (slice0 (Int n) ws).
Proof.
  intros Hw Hn. unfold HIBP.breaches. simpl.
  destruct (Z.eqb_spec n 0); [done|]. simpl.
  rewrite (deref_working _ _ Hw).
  eexists _, _. split; [done|].
  pose proof (alloc_fresh (slice0 (Int n) ws) this) as Hfresh. simpl in Hfresh.
  unfold HIBP.working in *. simpl.
  destruct (HIBP._breaches this) as [b|] eqn:Hb; [|done]. simpl in *.
  assert (fresh (dom (HIBP.heap this)) ≠ b) as Hfb by congruence.
  split; [by rewrite lookup_insert_ne|].
  intros cs. apply kept_invoke_all. split; simpl.
  - apply lookup_insert_eq.
  - congruence.
Qed.

Lemma breaches_with_limit_is_detached_witness :
  ∃ r this',
    HIBP.breaches (Some (Int 2)) fixture_loaded = (Normal (Some r), this') ∧
    HIBP.working this' = Some fixture ∧
    ∀ cs, HIBP.heap (invoke_all cs this') !! r = Some (slice0 (Int 2) fixture).
Proof.
  apply (breaches_with_limit_is_detached fixture_loaded fixture 2).
  - apply getBreaches_working.
  - lia.
Defined.

(** X19: before [getBreaches] the object holds no array: [reset], the
    generic filter, every named filter called with something to filter
    by, [pluck], [sort] and [breaches] with a non-zero limit throw a
    TypeError and leave the object as it was, while [breaches()] returns
    [undefined]. *)
Theorem calls_before_load_throw `{rt : Runtime} (this : HIBP.t) :
  HIBP._breaches this = None →
  HIBP._origBreaches this = None →
  HIBP.reset this = (Abrupt TypeError, this) ∧
  (∀ c, (∀ dataClasses, c = HasDataClass dataClasses → flat dataClasses ≠ []) →
        invoke c this = (Abrupt TypeError, this)) ∧
  (∀ n, n ≠ 0 → HIBP.breaches (Some (Int n)) this = (Abrupt TypeError, this)) ∧
  HIBP.breaches None this = (Normal None, this).
Proof.
  intros Hb Ho.
  assert (∀ fn, HIBP.filter fn this = (Abrupt TypeError, this)) as Hfilter.
  { intros fn. unfold HIBP.filter, HIBP.deref. by rewrite Hb. }
  split; [unfold HIBP.reset, HIBP.deref; by rewrite Ho|].
  split; [|split].
  - intros c Hc. destruct c; simpl; try apply Hfilter.
    + unfold HIBP.hasDataClass.
      destruct (flat dataClasses) as [|c cs] eqn:Hflat; [by destruct (Hc _ eq_refl)|].
      simpl. by rewrite Hfilter.
    + unfold HIBP.pluck, HIBP.deref. by rewrite Hb.
    + unfold HIBP.sort, HIBP.deref. by rewrite Hb.
  - intros n Hn. unfold HIBP.breaches, HIBP.deref. simpl.
    destruct (Z.eqb_spec n 0); [done|]. simpl. by rewrite Hb.
  - unfold HIBP.breaches. simpl. by rewrite Hb.
Qed.

Lemma calls_before_load_throw_witness :
  HIBP.reset HIBP.new = (Abrupt TypeError, HIBP.new) ∧
  invoke (Sort None None) HIBP.new = (Abrupt TypeError, HIBP.new) ∧
  HIBP.breaches None HIBP.new = (Normal None, HIBP.new).
Proof.
  destruct (calls_before_load_throw HIBP.new) as (H1 & H2 & _ & H3);
    [reflexivity..|].
  split; [exact H1|]. split; [|exact H3]. apply H2. discriminate.
Defined.

(** ** The demo script *)

Lemma and_then_returns {A} (o : completion unit * HIBP.t) ws
  (f : HIBP.t → completion A * HIBP.t) :
  returns o ws → and_then o f = f o.2 ∧ HIBP.working o.2 = Some ws.
Proof. destruct o as [[[]|e] this]; intros [Hn Hw]; simpl in *; done. Qed.

Lemma name_returns names this ws :
  HIBP.working this = Some ws →
  returns (HIBP.name names this)
    (filter (λ breach, get breach "Name" ∈ VStr <$> flat names) ws).
Proof.
  intros Hw. apply filter_pure_returns; [done|]. intros b.
  unfold array_includes. destruct (get b "Name") as [| | |s| |] eqn:Hg;
    try (split; [done|]; intros (? & ? & _)%list_elem_of_fmap; done).
  rewrite bool_decide_eq_true. split.
  - intros Hs. apply list_elem_of_fmap. eauto.
  - intros (s' & [= ->] & Hs)%list_elem_of_fmap. done.
Qed.

Lemma hasDomain_returns d this ws :
  HIBP.working this = Some ws →
  returns (HIBP.hasDomain (Some d) this)
    (filter (λ breach, get breach "Domain" = VStr d) ws).
Proof.
  intros Hw. apply filter_pure_returns; [done|]. intros b.
  unfold strict_eq_string. destruct (get b "Domain"); try by split.
  rewrite bool_decide_eq_true. split; congruence.
Qed.

Lemma boolProp_returns name bool this ws :
  HIBP.working this = Some ws →
  returns (HIBP._boolProp name bool this)
    (filter (λ breach, get breach name = VBool (default true bool)) ws).
Proof.
  intros Hw. apply filter_pure_returns; [done|]. intros b. simpl.
  unfold strict_eq_bool. destruct (get b name); try by split.
  rewrite bool_decide_eq_true. split; congruence.
Qed.

(** X20: on well-formed breaches the chain of the demo script returns, and
    the array it hands to the caller holds, for exactly the breaches that
    pass its five filters, an object with the properties [Name] and
    [PwnCount], in descending order of [PwnCount]. *)
Theorem main_result `{rt : Runtime} (data : list record) :
  Forall (λ breach, HIBP.well_formed breach = true) data →
  ∃ ws',
    returned (main data) = Some (HIBP.pluck_one ["Name"; "PwnCount"] <$> ws') ∧
    ws' ≡ₚ filter demo_keeps data ∧
    StronglySorted (λ x y, key_number "PwnCount" y ≤ key_number "PwnCount" x) ws'.
Proof.
  intros Hwf. unfold main.
  pose proof (getBreaches_working data HIBP.new) as Hw0.
  set (this0 := HIBP.getBreaches data HIBP.new) in *.
  destruct (and_then_returns _ _ (HIBP.hasDomain (Some ""))
              (name_returns [Str "MasterDeeds"; Str "Estonia"; Str "WienerBuchereien";
                             Str "Adobe"; Str "LinkedIn"] this0 data Hw0))
    as [-> Hw1].
  destruct (and_then_returns _ _ (HIBP.isSensitive (Some false))
              (hasDomain_returns "" _ _ Hw1)) as [-> Hw2].
  destruct (and_then_returns _ _ (HIBP.isVerified None)
              (boolProp_returns "IsSensitive" (Some false) _ _ Hw2
               : returns (HIBP.isSensitive (Some false) _) _)) as [-> Hw3].
  destruct (and_then_returns _ _ (HIBP.hasDataClass [Str "names"; Str "job-titles"])
              (boolProp_returns "IsVerified" (Some true) _ _ Hw3
               : returns (HIBP.isVerified None _) _)) as [-> Hw4].
  rewrite !list_filter_filter in Hw4.
  match type of Hw4 with _ = Some ?l => set (ws4 := l) in * end.
  assert (Forall (λ breach, HIBP.well_formed breach = true) ws4) as Hwf4.
  { rewrite Forall_forall in Hwf |- *.
    intros b [_ Hb]%list_elem_of_filter. by apply Hwf. }
  destruct (and_then_returns _ _ (HIBP.sort (Some "-PwnCount") None)
              (hasDataClass_loop_returns (flat [Str "names"; Str "job-titles"]) _ _
                 Hw4 (well_formed_data_classes _ Hwf4)
               : returns (HIBP.hasDataClass [Str "names"; Str "job-titles"] _) _))
    as [-> Hw5].
  match type of Hw5 with _ = Some ?l => set (ws5 := l) in * end.
  assert (ws5 = filter demo_keeps data) as Hws5.
  { unfold ws5, ws4. rewrite list_filter_filter. apply list_filter_iff.
    intros b. unfold demo_keeps. simpl. tauto. }
  assert (Forall (λ breach, HIBP.well_formed breach = true) ws5) as Hwf5.
  { rewrite Forall_forall in Hwf4 |- *.
    intros b [_ Hb]%list_elem_of_filter. by apply Hwf4. }
  destruct (sort_returns_sorted _ ws5 (Some "-PwnCount") None HIBP.SNumber (-1)
              Hw5 Hwf5 eq_refl eq_refl) as (ws' & Hsort & Hperm & _ & Hdesc).
  destruct (and_then_returns _ _ (HIBP.pluck [Str "Name"; Str "PwnCount"]) Hsort)
    as [-> Hw6].
  destruct (and_then_returns _ _ (HIBP.breaches None)
              (pluck_returns [Str "Name"; Str "PwnCount"] _ _ Hw6)) as [-> Hw7].
  exists ws'. split; [by apply breaches_falsy|].
  split; [by rewrite <- Hws5|].
  eapply StronglySorted_impl_on; [|apply Hdesc; lia].
  intros x y Hx Hy. rewrite Forall_forall in Hwf5.
  change (HIBP.sort_key (default "AddedDate" (Some "-PwnCount"))) with "PwnCount".
  destruct (key_order_numeric "PwnCount" HIBP.SNumber x y) as [-> _];
    [done|done|apply Hwf5; by rewrite <- Hperm..|].
  lia.
Qed.

Lemma main_result_witness :
  ∃ ws',
    returned (main fixture) = Some (HIBP.pluck_one ["Name"; "PwnCount"] <$> ws') ∧
    ws' ≡ₚ filter demo_keeps fixture ∧
    StronglySorted (λ x y, key_number "PwnCount" y ≤ key_number "PwnCount" x) ws'.
Proof.
  apply (main_result fixture). repeat constructor.
Defined.

(** ** Sorting what is sorted *)

Lemma sort_loop_of_sorted `{rt : Runtime} {A} (fn : A → A → completion value)
  (S : A → Prop) a sorted :
  (∀ x y, S x → S y → ∃ v, fn x y = Normal v) →
  Forall S a → Forall S sorted →
  StronglySorted (λ x y, ¬ order_of fn y x < 0) (reverse sorted ++ a) →
  sort_loop fn a sorted = Normal (reverse sorted ++ a).
Proof.
  intros Htotal. revert sorted.
  induction a as [|x a IH]; intros sorted Ha Hs Hsorted; simpl.
  - by rewrite app_nil_r.
  - apply Forall_cons in Ha as [Hx Ha].
    assert (insert_pivot fn x sorted = Normal (x :: sorted)) as ->.
    { destruct sorted as [|e sorted]; [done|]. simpl.
      apply Forall_cons in Hs as [He Hs].
      rewrite (sort_compare_on fn S Htotal x e Hx He). simpl.
      destruct (Z.ltb_spec (order_of fn x e) 0) as [Hlt|]; [|done].
      exfalso.
      apply (StronglySorted_app_1_elem_of _ _ _ e x) in Hsorted; [done| |left].
      rewrite elem_of_reverse. left. }
    simpl. rewrite IH; [by rewrite reverse_cons, <- app_assoc|done|by constructor|].
    by rewrite reverse_cons, <- app_assoc.
Qed.

(** X21: sorting twice is sorting once: on well-formed breaches a second
    [sort] with the same key of [HIBP.types] and the same direction
    returns and leaves the working set as the first call left it. *)
Theorem sort_twice `{rt : Runtime} (this : HIBP.t) (ws : list record)
  (key : option string) (d : option direction) (ty : HIBP.sort_type) :
  HIBP.working this = Some ws →
  Forall (λ breach, HIBP.well_formed breach = true) ws →
  HIBP.types !! HIBP.sort_key (default "AddedDate" key) = Some ty →
  ∃ ws',
    returns (HIBP.sort key d this) ws' ∧
    returns (HIBP.sort key d (HIBP.sort key d this).2) ws'.
Proof.
  intros Hw Hwf Hk.
  destruct (comparator_sort_fn key d) as (d' & Hfn & _).
  set (k := HIBP.sort_key (default "AddedDate" key)) in *.
  rewrite Hk in Hfn.
  set (fn := HIBP.sort_fn k (Some ty) d') in *.
  set (S := λ breach : record, HIBP.well_formed breach = true).
  assert (∀ x y, S x → S y →
            order_of fn x y = match HIBP.direction_to_number d' with
                              | Int z => key_order k ty x y * z
                              | NaN => 0
                              end) as Horder.
  { intros x y Hx Hy. unfold fn. by rewrite order_of_sort_fn. }
  assert (∀ x y, S x → S y → ∃ v, fn x y = Normal v) as Htotal.
  { intros x y Hx Hy. unfold fn. rewrite sort_fn_well_formed by done. by eexists. }
  destruct (sort_loop_ordered fn S Htotal) with (a := ws) (sorted := @nil record)
    as (ws' & Hs & Hsorted); [| |done|constructor|constructor|].
  { intros x y Hx Hy. rewrite !Horder by done.
    pose proof (key_order_sgn k ty x y Hk Hx Hy).
    destruct (HIBP.direction_to_number d'); [lia|nia]. }
  { intros x y y' Hx Hy Hy'. rewrite !Horder by done.
    pose proof (key_order_sgn k ty x y Hk Hx Hy).
    pose proof (key_order_sgn k ty y y' Hk Hy Hy').
    pose proof (key_order_sgn k ty x y' Hk Hx Hy').
    pose proof (key_order_trans k ty x y y' Hk Hx Hy Hy').
    pose proof (key_order_trans k ty y' y x Hk Hy' Hy Hx).
    destruct (HIBP.direction_to_number d'); [lia|nia]. }
  pose proof (sort_loop_perm fn _ _ _ Hs) as Hperm. simpl in Hperm.
  assert (returns (HIBP.sort key d this) ws') as Hfirst.
  { apply (sort_returns _ _ _ ws); [done|by rewrite Hfn]. }
  exists ws'. split; [done|].
  apply (sort_returns _ _ _ ws'); [apply Hfirst|]. rewrite Hfn.
  apply (sort_loop_of_sorted fn S ws' [] Htotal); [|constructor|done].
  by rewrite Hperm.
Qed.

Lemma sort_twice_witness :
  ∃ ws',
    returns (HIBP.sort (Some "-AddedDate") None fixture_loaded) ws' ∧
    returns (HIBP.sort (Some "-AddedDate") None
               (HIBP.sort (Some "-AddedDate") None fixture_loaded).2) ws'.
Proof.
  apply (sort_twice fixture_loaded fixture (Some "-AddedDate") None HIBP.SDate).
  - apply getBreaches_working.
  - repeat constructor.
  - reflexivity.
Defined.
